(** * Local embedding service: the vector post-processing pipeline

    A shallow embedding of the embedding servers of the repository (the
    plain OpenAI-shaped server, the one that pads or truncates to
    [TARGET_DIM], the one with the pooled fast path and the BGE
    prefixes, and the minimal one), with the properties of their numeric
    helpers and of their handlers.

    Numbers.  The numeric helpers are given twice.  Module [B64] has
    them on binary64 numbers, the arithmetic JavaScript runs, with [NaN]
    for a read past a buffer: what is stated about computed values is
    stated there.  Outside the module the same helpers are written over
    the real numbers, with exact sums and quotients; the handlers are
    built on these, and what is stated of them is the shape of results:
    lengths, order and position of entries, and how the helpers compose.
    Array lengths, indices and token counts are natural numbers.

    Strings.  A string is the sequence of its UTF-16 code units, each
    below 256; a text with other code units is outside the model. *)

From Stdlib Require Import PrimFloat.
From Stdlib Require Import Reals Lra Lia ZArith.
From Stdlib Require Import String Ascii DecimalString.
From stdpp Require Import base list.

Local Open Scope string_scope.
Local Open Scope list_scope.
Local Open Scope nat_scope.

(** ** Raw tensors *)

(** The tensor a feature-extraction call resolves to: [dims] is
    [[1, tokens, dim]] and [data] the flat row-major buffer. *)
Record tensor : Type := Tensor {
  t_tokens : nat;
  t_dim : nat;
  t_data : list R
}.

(** [data[i]].  Inside the buffer this is the stored number; every
    statement below that depends on the values read keeps the index
    inside the buffer ([length data = tokens * dim]). *)
Definition data_at (data : list R) (i : nat) : R := default 0%R (data !! i).

(** ** Vector post-processor *)

(** [out[i % dim] += data[i]] *)
Definition accumulate (data : list R) (dim : nat) (out : list R) (i : nat) : list R :=
  alter (fun o => (o + data_at data i)%R) (i mod dim) out.

(** [out[d] /= tokens] *)
Definition divide_at (tokens : nat) (out : list R) (d : nat) : list R :=
  alter (fun o => (o / INR tokens)%R) d out.

(** [meanPoolTensor(t)]: returns [{ vec: out, tokens }]. *)
Definition meanPoolTensor (t : tensor) : list R * nat :=
  let tokens := t_tokens t in
  let dim := t_dim t in
  let data := t_data t in
  let out := replicate dim 0%R in
  let out := foldl (accumulate data dim) out (seq 0 (tokens * dim)) in
  let out := foldl (divide_at tokens) out (seq 0 dim) in
  (out, tokens).

(** The sum of column [d]: [sum_{t < T} data[t*D + d]]. *)
Definition column_sum (data : list R) (T D d : nat) : R :=
  foldr Rplus 0%R ((fun t => data_at data (t * D + d)) <$> seq 0 T).

(** *** Partial column sums *)

(** Sum of the entries with index below [n] that fall in column [d]. *)
Fixpoint partial_sum (data : list R) (dim d n : nat) : R :=
  match n with
  | O => 0%R
  | S k =>
      (partial_sum data dim d k +
       (if decide (k mod dim = d)%nat then data_at data k else 0))%R
  end.

(** ** L2 normalization *)

#[global] Instance R_eq_dec : EqDecision R := Req_dec_T.

(** [let s = 0; for (const x of v) s += x * x;] *)
Definition sum_squares (v : list R) : R := foldl (fun s x => (s + x * x)%R) 0%R v.

(** [a || 1] on a number: the right operand when the left one is zero. *)
Definition or_one (a : R) : R := if decide (a = 0%R) then 1%R else a.

(** [l2norm(v)] *)
Definition l2norm (v : list R) : list R :=
  let s := sum_squares v in
  let n := or_one (sqrt s) in
  (fun x => (x / n)%R) <$> v.

(** ** Dimension reconciliation *)

(** [vec.slice(0, end)] for an integer [end]: a negative [end] counts
    from the end of the array, and the result never runs past it. *)
Definition slice_to (vec : list R) (e : Z) : list R :=
  let len := Z.of_nat (length vec) in
  let final := if decide (e < 0)%Z then Z.max (len + e) 0 else Z.min e len in
  take (Z.to_nat final) vec.

(** [adjustDim(vec, target)].  [target] is [TARGET_DIM], the number read
    from the environment; the model covers its integer values. *)
Definition adjustDim (vec : list R) (target : Z) : list R :=
  let len := Z.of_nat (length vec) in
  if decide (len = target) then vec
  else if decide (len < target)%Z
       then vec ++ replicate (Z.to_nat (target - len)) 0%R
       else slice_to vec target.

(** ** Request values *)

#[local] Set Warnings "-register-all".

(** A value of the parsed JSON body; [JUndefined] is what reading an
    absent field gives.  Numbers in request fields are the integers that
    [String] prints in plain decimal notation. *)
Inductive jsval : Type :=
  | JUndefined
  | JNull
  | JBool (b : bool)
  | JNum (z : Z)
  | JStr (s : string)
  | JArr (elems : list jsval)
  | JObj (fields : list (string * jsval)).

(** The fields of [req.body] the handlers read. *)
Record request : Type := Request {
  input : jsval;
  model : jsval;
  type : jsval;
  normalize : jsval
}.

(** [a ?? b] *)
Definition nullish (a b : jsval) : jsval :=
  match a with
  | JUndefined | JNull => b
  | _ => a
  end.

(** Truthiness, as [||], [&&] and [if] test it. *)
Definition truthy (v : jsval) : bool :=
  match v with
  | JUndefined | JNull => false
  | JBool b => b
  | JNum z => negb (z =? 0)%Z
  | JStr s => negb (String.eqb s "")
  | JArr _ | JObj _ => true
  end.

(** [a || b] *)
Definition js_or (a b : jsval) : jsval := if truthy a then a else b.

Fixpoint join (sep : string) (parts : list string) : string :=
  match parts with
  | [] => ""
  | [p] => p
  | p :: rest => String.append p (String.append sep (join sep rest))
  end.

(** [String(v)] *)
Fixpoint to_string (v : jsval) : string :=
  match v with
  | JUndefined => "undefined"
  | JNull => "null"
  | JBool true => "true"
  | JBool false => "false"
  | JNum z => NilZero.string_of_int (Z.to_int z)
  | JStr s => s
  | JArr elems =>
      join "," (map (fun e => match e with
                              | JUndefined | JNull => ""
                              | _ => to_string e
                              end) elems)
  | JObj _ => "[object Object]"
  end.

(** The white space and line terminators that [trim] strips, among the
    code units below 256: tab, line feed, vertical tab, form feed,
    carriage return, space and no-break space. *)
Definition is_space (c : ascii) : bool :=
  let n := nat_of_ascii c in
  (n =? 9) || (n =? 10) || (n =? 11) || (n =? 12) || (n =? 13) || (n =? 32)
  || (n =? 160).

Fixpoint trim_start (s : string) : string :=
  match s with
  | EmptyString => EmptyString
  | String c rest => if is_space c then trim_start rest else s
  end.

Fixpoint trim_end (s : string) : string :=
  match s with
  | EmptyString => EmptyString
  | String c rest =>
      match trim_end rest with
      | EmptyString => if is_space c then EmptyString else String c EmptyString
      | kept => String c kept
      end
  end.

(** [s.trim()] *)
Definition trim (s : string) : string := trim_end (trim_start s).

(** ** Request normalizer *)

(** [Array.isArray(input) ? input : [String(input ?? " ")]] *)
Definition items (inp : jsval) : list jsval :=
  match inp with
  | JArr elems => elems
  | _ => [JStr (to_string (nullish inp (JStr " ")))]
  end.

(** [t => { const s = String(t ?? "").trim(); return s.length ? s : " "; }] *)
Definition text_of (t : jsval) : string :=
  let s := trim (to_string (nullish t (JStr ""))) in
  if (String.length s =? 0)%nat then " "%string else s.

Definition texts (inp : jsval) : list string := text_of <$> items inp.

(** The elements of the raw input as the specification counts them: the
    members of an array, or the single value. *)
Definition elements (inp : jsval) : list jsval :=
  match inp with
  | JArr elems => elems
  | _ => [inp]
  end.

(** *** What [trim] returns *)

Fixpoint all_space (s : string) : bool :=
  match s with
  | EmptyString => true
  | String c rest => is_space c && all_space rest
  end.

Definition first_char (s : string) : option ascii :=
  match s with
  | EmptyString => None
  | String c _ => Some c
  end.

Fixpoint last_char (s : string) : option ascii :=
  match s with
  | EmptyString => None
  | String c EmptyString => Some c
  | String _ rest => last_char rest
  end.

Definition not_space (o : option ascii) : Prop :=
  match o with
  | None => True
  | Some c => is_space c = false
  end.

(** ** Errors and responses *)

(** A thrown [Error] object. *)
Record js_error : Type := JsError {
  err_name : string;
  err_message : string
}.

(** [Error.prototype.toString] *)
Definition Error_toString (e : js_error) : string :=
  if String.eqb (err_name e) "" then err_message e
  else if String.eqb (err_message e) "" then err_name e
  else String.append (err_name e) (String.append ": " (err_message e)).

(** [String(e?.message || e)] *)
Definition error_text (e : js_error) : string :=
  if negb (String.eqb (err_message e) "") then err_message e else Error_toString e.

Record embedding_entry : Type := Entry {
  e_object : string;
  e_index : nat;
  e_embedding : list R
}.

Record usage : Type := Usage {
  prompt_tokens : nat;
  total_tokens : nat
}.

(** The JSON body the handler sends, with the HTTP status. *)
Record response : Type := Response {
  status : nat;
  r_object : string;
  r_data : list embedding_entry;
  r_model : jsval;
  r_usage : usage;
  r_error : option string
}.

(** Configuration read at start-up.  [TARGET_DIM] is [None] for the
    server that returns vectors in the native dimension (it has no
    [adjustDim] step and its label is the literal
    ["text-embedding-3-small"]). *)
Record config : Type := Config {
  TARGET_DIM : option Z;
  RESPONSE_MODEL_LABEL : string
}.

Definition plain_config : config :=
  {| TARGET_DIM := None; RESPONSE_MODEL_LABEL := "text-embedding-3-small" |}.

Definition padded_config (target : Z) (label : string) : config :=
  {| TARGET_DIM := Some target; RESPONSE_MODEL_LABEL := label |}.

Definition NORMALIZE : bool := true.

(** [Number(x)] on a number. *)
Definition Number (x : R) : R := x.

(** ** Computations that call the inference collaborator *)

Section Calls.

(** The state of the collaborator, which its calls may change. *)
Variable world : Type.

(** Computations of a [try] block: they thread the collaborator's state
    and stop at the first error. *)
Definition M (A : Type) : Type := world -> (js_error + A) * world.

Definition ret {A} (a : A) : M A := fun w => (inr a, w).

Definition bind {A B} (m : M A) (k : A -> M B) : M B :=
  fun w =>
    match m w with
    | (inl e, w') => (inl e, w')
    | (inr a, w') => k a w'
    end.

(** [p.catch(() => null)] *)
Definition catch_null {A} (m : M A) : M (option A) :=
  fun w =>
    match m w with
    | (inl _, w') => (inr None, w')
    | (inr a, w') => (inr (Some a), w')
    end.

End Calls.

Arguments ret {world A} a.
Arguments bind {world A B} m k.
Arguments catch_null {world A} m.

Notation "'do' x <- m ;; k" := (bind m (fun x => k))
  (at level 10, x name, m at level 99, k at level 200).

(** ** The [/embed] handler *)

Section Handler.

(** The inference collaborator: a call on a text either resolves to a
    raw tensor or rejects with an error. *)
Variable world : Type.
Variable embedder : string -> M world tensor.
Variable cfg : config.

(** The per-item pipeline after the model call. *)
Definition embed_item (raw : tensor) : list R * nat :=
  let '(vec, tokens) := meanPoolTensor raw in
  let emb := if NORMALIZE then l2norm vec else vec in
  let emb := match TARGET_DIM cfg with
             | Some target => adjustDim emb target
             | None => emb
             end in
  (emb, tokens).

(** [for (let i = 0; i < texts.length; i++) { ... data.push(...) }],
    from index [i] on, with [rest] the texts still to process. *)
Fixpoint embed_loop (rest : list string) (i : nat)
    (data : list embedding_entry) (totalTokens : nat)
    : M world (list embedding_entry * nat) :=
  match rest with
  | [] => ret (data, totalTokens)
  | text :: rest' =>
      do raw <- embedder text ;;
      let '(emb, tokens) := embed_item raw in
      embed_loop rest' (S i)
        (data ++ [{| e_object := "embedding"; e_index := i;
                     e_embedding := Number <$> emb |}])
        (totalTokens + tokens)
  end.

Definition embed_try (req : request) : M world response :=
  let responseModel := js_or (model req) (JStr (RESPONSE_MODEL_LABEL cfg)) in
  do r <- embed_loop (texts (input req)) 0 [] 0 ;;
  let '(data, totalTokens) := r in
  ret {| status := 200; r_object := "list"; r_data := data;
         r_model := responseModel;
         r_usage := {| prompt_tokens := totalTokens; total_tokens := totalTokens |};
         r_error := None |}.

Definition embed_catch (req : request) (e : js_error) : response :=
  {| status := 500; r_object := "list"; r_data := [];
     r_model := js_or (model req) (JStr (RESPONSE_MODEL_LABEL cfg));
     r_usage := {| prompt_tokens := 0; total_tokens := 0 |};
     r_error := Some (error_text e) |}.

(** [app.post("/embed", ...)] *)
Definition post_embed (req : request) (w : world) : response * world :=
  match embed_try req w with
  | (inr resp, w') => (resp, w')
  | (inl e, w') => (embed_catch req e, w')
  end.

(** [calls_ok ts w raws w']: called on the texts [ts] in turn from
    state [w], the collaborator resolves every call, to the tensors
    [raws], and ends in state [w']. *)
Inductive calls_ok : list string -> world -> list tensor -> world -> Prop :=
  | calls_ok_nil w : calls_ok [] w [] w
  | calls_ok_cons text ts w raw w1 raws w2 :
      embedder text w = (inr raw, w1) ->
      calls_ok ts w1 raws w2 ->
      calls_ok (text :: ts) w (raw :: raws) w2.

(** The entries a run of successful calls appends, numbered from [i]. *)
Fixpoint entries_from (i : nat) (raws : list tensor) : list embedding_entry :=
  match raws with
  | [] => []
  | raw :: raws' =>
      {| e_object := "embedding"; e_index := i;
         e_embedding := (embed_item raw).1 |} :: entries_from (S i) raws'
  end.

Definition tokens_of (raws : list tensor) : nat :=
  foldr Nat.add 0 (t_tokens <$> raws).

End Handler.

Arguments embed_loop {world} embedder cfg rest i data totalTokens.
Arguments embed_try {world} embedder cfg req.
Arguments post_embed {world} embedder cfg req w.
Arguments calls_ok {world} embedder _ _ _ _.

(** A collaborator that resolves its first call and rejects the later
    ones; its state counts the calls. *)
Definition fails_second (text : string) (calls : nat) : (js_error + tensor) * nat :=
  match calls with
  | O => (inr {| t_tokens := 1; t_dim := 2; t_data := [3; 4]%R |}, S calls)
  | _ => (inl {| err_name := "Error"; err_message := "model fault" |}, S calls)
  end.

(** A collaborator that resolves every call and counts them. *)
Definition always_ok (text : string) (calls : nat) : (js_error + tensor) * nat :=
  (inr {| t_tokens := 1; t_dim := 2; t_data := [3; 4]%R |}, S calls).

(** ** The server with prefixes and the pooled fast path *)

Module Prefixed.

(** [meanPoolTensor(t)] of this server: the same loops, returning [out]
    alone. *)
Definition meanPoolTensor (t : tensor) : list R :=
  let tokens := t_tokens t in
  let dim := t_dim t in
  let data := t_data t in
  let out := replicate dim 0%R in
  let out := foldl (accumulate data dim) out (seq 0 (tokens * dim)) in
  let out := foldl (divide_at tokens) out (seq 0 dim) in
  out.

(** Case folding of the [i] flag, on ASCII letters. *)
Definition fold_case (c : ascii) : ascii :=
  let n := nat_of_ascii c in
  if (65 <=? n) && (n <=? 90) then ascii_of_nat (n + 32) else c.

Fixpoint matches_here (pat s : string) : bool :=
  match pat, s with
  | EmptyString, _ => true
  | String _ _, EmptyString => false
  | String p pat', String c s' =>
      Ascii.eqb (fold_case p) (fold_case c) && matches_here pat' s'
  end.

(** [/pat/i.test(s)] for a pattern of literal characters: a match may
    start at any position of [s]. *)
Fixpoint regex_test_i (pat s : string) : bool :=
  matches_here pat s ||
  match s with
  | EmptyString => false
  | String _ s' => regex_test_i pat s'
  end.

(** [withPrefix(str, kind)], with the configuration it reads. *)
Definition withPrefix (USE_PREFIX_FOR_BGE : bool) (MODEL_ID : string)
    (str kind : string) : string :=
  if negb USE_PREFIX_FOR_BGE || negb (regex_test_i "bge" MODEL_ID) then str
  else if String.eqb kind "query" then String.append "query: " str
  else String.append "passage: " str.

(** What the handler inspects of the value that the call with pooling
    options resolves to: [data] and [dims], either of which may be
    missing. *)
Record pooled_output : Type := PooledOutput {
  o_data : option (list R);
  o_dims : option (list nat)
}.

(** [out?.data && out?.dims?.length >= 1], with [out.data] when it
    holds; [out] is [None] for [null]. *)
Definition built_in (out : option pooled_output) : option (list R) :=
  match out with
  | Some o =>
      match o_data o, o_dims o with
      | Some data, Some dims => if 1 <=? length dims then Some data else None
      | _, _ => None
      end
  | None => None
  end.

(** The manual normalization of the fallback branch:
    [let sum = 0; for (const v of vec) sum += v*v;
     const norm = Math.sqrt(sum) || 1; vec = vec.map(v => v / norm);] *)
Definition normalize_inline (vec : list R) : list R :=
  let sum := foldl (fun sum v => (sum + v * v)%R) 0%R vec in
  let norm := or_one (sqrt sum) in
  (fun v => (v / norm)%R) <$> vec.

(** [req.body?.normalize ?? NORMALIZE] *)
Definition normalize_of (req : request) : jsval := nullish (normalize req) (JBool true).

(** [req.body?.type === "query" ? "query" : "passage"] *)
Definition kind_of (req : request) : string :=
  match type req with
  | JStr s => if String.eqb s "query" then "query" else "passage"
  | _ => "passage"
  end.

(** [arr.map(t => { const s = String(t ?? "").trim();
                   return withPrefix(s.length ? s : " ", kind); })] *)
Definition texts (USE_PREFIX_FOR_BGE : bool) (MODEL_ID : string) (req : request)
    : list string :=
  (fun t => withPrefix USE_PREFIX_FOR_BGE MODEL_ID (text_of t) (kind_of req))
    <$> items (input req).

Section Adapter.

Variable world : Type.

(** [embedder(text, { pooling: "mean", normalize })] *)
Variable embedder_pooled : string -> jsval -> M world pooled_output.

(** [embedder(text)] *)
Variable embedder : string -> M world tensor.

(** The body of [for (const text of texts)], from the value [dim] has
    before it: the vector it pushes and the value [dim] has after it. *)
Definition embed_text (normalize : jsval) (dim : nat) (text : string)
    : M world (list R * nat) :=
  do out <- catch_null (embedder_pooled text normalize) ;;
  match built_in out with
  | Some data =>
      let vec := Number <$> data in
      ret (vec, if dim =? 0 then length vec else dim)
  | None =>
      do raw <- embedder text ;;
      let vec := Number <$> meanPoolTensor raw in
      let vec := if truthy normalize then normalize_inline vec else vec in
      ret (vec, if dim =? 0 then length vec else dim)
  end.

End Adapter.

Arguments embed_text {world} embedder_pooled embedder normalize dim text.

End Prefixed.

(** The specification's reading of the test: the identifier contains the
    marker, up to the case of letters. *)
Fixpoint fold_case_string (s : string) : string :=
  match s with
  | EmptyString => EmptyString
  | String c s' => String (Prefixed.fold_case c) (fold_case_string s')
  end.

Definition contains_marker (marker id : string) : Prop :=
  exists before found after,
    id = String.append before (String.append found after) /\
    fold_case_string found = fold_case_string marker.

(** A collaborator without pooling options: the call that passes them
    rejects. *)
Definition no_pooling (text : string) (normalize : jsval) (calls : nat)
    : (js_error + Prefixed.pooled_output) * nat :=
  (inl {| err_name := "TypeError"; err_message := "pooling is not supported" |}, S calls).

(** A collaborator that pools and normalizes by itself. *)
Definition pools_itself (text : string) (normalize : jsval) (calls : nat)
    : (js_error + Prefixed.pooled_output) * nat :=
  (inr {| Prefixed.o_data := Some [3 / 5; 4 / 5]%R; Prefixed.o_dims := Some [1; 2] |},
   S calls).

(** ** Tensors given by their token rows *)

(** The flat row-major buffer of the token rows [rows], each of [D]
    numbers, with its dims [[1, length rows, D]]. *)
Definition tensor_of_rows (D : nat) (rows : list (list R)) : tensor :=
  {| t_tokens := length rows; t_dim := D; t_data := concat rows |}.

(** The sum of component [d] over the rows. *)
Definition column_total (rows : list (list R)) (d : nat) : R :=
  foldr Rplus 0%R ((fun row => default 0%R (row !! d)) <$> rows).

(** The inner product of two vectors, as a vector store computes it for
    cosine similarity. *)
Definition dot (u v : list R) : R := foldr Rplus 0%R (zip_with Rmult u v).

(** ** The [/health] handler *)

(** The body of a [/health] answer with its status.  [h_dim] is the
    field [dim], called [base_dim] by the server with [TARGET_DIM], which
    also sends [target_dim]. *)
Record health_response : Type := HealthResponse {
  h_status : nat;
  h_ok : bool;
  h_model : option string;
  h_dim : option nat;
  h_target_dim : option Z;
  h_error : option string
}.

Section Health.

Variable world : Type.
Variable embedder : string -> M world tensor.
Variable cfg : config.
Variable MODEL_ID : string.

Definition health_try : M world health_response :=
  do t <- embedder "ok" ;;
  let '(vec, _) := meanPoolTensor t in
  ret {| h_status := 200; h_ok := true; h_model := Some MODEL_ID;
         h_dim := Some (length vec); h_target_dim := TARGET_DIM cfg;
         h_error := None |}.

Definition health_catch (e : js_error) : health_response :=
  {| h_status := 500; h_ok := false; h_model := None; h_dim := None;
     h_target_dim := None; h_error := Some (error_text e) |}.

(** [app.get("/health", ...)] *)
Definition get_health (w : world) : health_response * world :=
  match health_try w with
  | (inr resp, w') => (resp, w')
  | (inl e, w') => (health_catch e, w')
  end.

End Health.

Arguments get_health {world} embedder cfg MODEL_ID w.

(** ** The handlers of the server with the pooled fast path *)

Module PrefixedServer.

(** [out?.dims?.at(-1) ?? out?.data?.length ?? null] *)
Definition health_dim (out : option Prefixed.pooled_output) : option nat :=
  match out with
  | None => None
  | Some o =>
      match Prefixed.o_dims o ≫= last with
      | Some d => Some d
      | None => length <$> Prefixed.o_data o
      end
  end.

Record health_response : Type := HealthResponse {
  h_status : nat;
  h_ok : bool;
  h_model : option string;
  h_dim : option nat;
  h_normalize : option jsval;
  h_error : option string
}.

(** One element of [data]: [{ embedding: v }]. *)
Record embedding_only : Type := EmbeddingOnly {
  embedding : list R
}.

Record response : Type := Response {
  status : nat;
  ok : bool;
  model : option string;
  dim : option nat;
  vectors : list (list R);
  data : list embedding_only;
  error : option string
}.

Section Handlers.

Variable world : Type.
Variable embedder_pooled : string -> jsval -> M world Prefixed.pooled_output.
Variable embedder : string -> M world tensor.
Variable USE_PREFIX_FOR_BGE : bool.
Variable MODEL_ID : string.

Definition health_try : M world health_response :=
  do out <- catch_null (embedder_pooled "ok" (JBool true)) ;;
  let dim := health_dim out in
  ret {| h_status := 200; h_ok := true; h_model := Some MODEL_ID; h_dim := dim;
         h_normalize := Some (JBool true); h_error := None |}.

(** [app.get("/health", ...)] *)
Definition get_health (w : world) : health_response * world :=
  match health_try w with
  | (inr resp, w') => (resp, w')
  | (inl e, w') =>
      ({| h_status := 500; h_ok := false; h_model := None; h_dim := None;
          h_normalize := None; h_error := Some (error_text e) |}, w')
  end.

(** [for (const text of texts) { ...; vectors.push(vec); }] *)
Fixpoint embed_texts (normalize : jsval) (texts : list string) (dim : nat)
    (vectors : list (list R)) : M world (list (list R) * nat) :=
  match texts with
  | [] => ret (vectors, dim)
  | text :: rest =>
      do r <- Prefixed.embed_text embedder_pooled embedder normalize dim text ;;
      let '(vec, dim') := r in
      embed_texts normalize rest dim' (vectors ++ [vec])
  end.

Definition embed_try (req : request) : M world response :=
  let normalize := Prefixed.normalize_of req in
  let texts := Prefixed.texts USE_PREFIX_FOR_BGE MODEL_ID req in
  do r <- embed_texts normalize texts 0 [] ;;
  let '(vectors, dim) := r in
  ret {| status := 200; ok := true; model := Some MODEL_ID; dim := Some dim;
         vectors := vectors; data := EmbeddingOnly <$> vectors; error := None |}.

(** The [catch] block; on an [Error], [e?.message || String(e)] is the
    text [String(e?.message || e)]. *)
Definition embed_catch (e : js_error) : response :=
  {| status := 500; ok := false; model := None; dim := None;
     vectors := []; data := []; error := Some (error_text e) |}.

(** [app.post("/embed", ...)] *)
Definition post_embed (req : request) (w : world) : response * world :=
  match embed_try req w with
  | (inr resp, w') => (resp, w')
  | (inl e, w') => (embed_catch e, w')
  end.

(** [items_ok normalize ts w vecs w']: processed in turn from state [w],
    every text of [ts] gets a vector, [vecs] in order, and the
    collaborator ends in state [w']. *)
Inductive items_ok (normalize : jsval)
    : list string -> world -> list (list R) -> world -> Prop :=
  | items_ok_nil w : items_ok normalize [] w [] w
  | items_ok_cons text ts w vec dim' w1 vecs w2 :
      Prefixed.embed_text embedder_pooled embedder normalize 0 text w
        = (inr (vec, dim'), w1) ->
      items_ok normalize ts w1 vecs w2 ->
      items_ok normalize (text :: ts) w (vec :: vecs) w2.

End Handlers.

(** The value [dim] ends with: the length of the first vector that is
    not empty, 0 when there is none. *)
Fixpoint first_dim (vecs : list (list R)) : nat :=
  match vecs with
  | [] => 0
  | vec :: rest => if length vec =? 0 then first_dim rest else length vec
  end.

Arguments get_health {world} embedder_pooled MODEL_ID w.
Arguments embed_texts {world} embedder_pooled embedder normalize texts dim vectors.
Arguments post_embed {world} embedder_pooled embedder USE_PREFIX_FOR_BGE MODEL_ID req w.
Arguments items_ok {world} embedder_pooled embedder normalize _ _ _ _.

End PrefixedServer.

(** ** The minimal server *)

Module Minimal.

Definition MODEL_ID : string := "Xenova/bge-small-en-v1.5".

(** [meanPool(tensor)] *)
Definition meanPool (t : tensor) : list R :=
  let tokens := t_tokens t in
  let dim := t_dim t in
  let data := t_data t in
  let out := replicate dim 0%R in
  let out := foldl (accumulate data dim) out (seq 0 (tokens * dim)) in
  let out := foldl (divide_at tokens) out (seq 0 dim) in
  out.

(** [String(t || " ")] *)
Definition text_of (t : jsval) : string := to_string (js_or t (JStr " ")).

Record response : Type := Response {
  status : nat;
  ok : bool;
  model : option string;
  dim : option nat;
  vectors : list (list R);
  error : option string
}.

Section Handler.

Variable world : Type.
Variable embedder : string -> M world tensor.

(** [for (const t of arr) { ...; vectors.push(meanPool(out)); }] *)
Fixpoint embed_loop (arr : list jsval) (vectors : list (list R))
    : M world (list (list R)) :=
  match arr with
  | [] => ret vectors
  | t :: rest =>
      do out <- embedder (text_of t) ;;
      embed_loop rest (vectors ++ [meanPool out])
  end.

Definition embed_try (req : request) : M world response :=
  let arr := items (input req) in
  do vectors <- embed_loop arr [] ;;
  ret {| status := 200; ok := true; model := Some MODEL_ID;
         dim := Some (match head vectors with
                      | Some first => length first
                      | None => 0
                      end);
         vectors := vectors; error := None |}.

(** [app.post("/embed", ...)]; the error field is [e.message]. *)
Definition post_embed (req : request) (w : world) : response * world :=
  match embed_try req w with
  | (inr resp, w') => (resp, w')
  | (inl e, w') =>
      ({| status := 500; ok := false; model := None; dim := None;
          vectors := []; error := Some (err_message e) |}, w')
  end.

End Handler.

Arguments embed_loop {world} embedder arr vectors.
Arguments post_embed {world} embedder req w.

End Minimal.

(** ** The numeric helpers on binary64 numbers *)

Module B64.

(** A JavaScript number: a binary64 value. *)
Abbreviation number := PrimFloat.float.

(** The number that holds a count [n] (exact below [2^53]). *)
Fixpoint of_pos (p : positive) : number :=
  match p with
  | xH => 1%float
  | xO q => (2 * of_pos q)%float
  | xI q => (2 * of_pos q + 1)%float
  end.

Definition of_nat (n : nat) : number :=
  match N.of_nat n with
  | N0 => 0%float
  | Npos p => of_pos p
  end.

Record tensor : Type := Tensor {
  t_tokens : nat;
  t_dim : nat;
  t_data : list number
}.

(** [data[i]] as an operand of [+=]: past the end of the buffer the read
    gives [undefined], which the addition converts to [NaN]. *)
Definition data_at (data : list number) (i : nat) : number := default nan (data !! i).

Definition accumulate (data : list number) (dim : nat) (out : list number) (i : nat)
    : list number :=
  alter (fun o => (o + data_at data i)%float) (i mod dim) out.

Definition divide_at (tokens : nat) (out : list number) (d : nat) : list number :=
  alter (fun o => (o / of_nat tokens)%float) d out.

Definition meanPoolTensor (t : tensor) : list number * nat :=
  let tokens := t_tokens t in
  let dim := t_dim t in
  let data := t_data t in
  let out := replicate dim 0%float in
  let out := foldl (accumulate data dim) out (seq 0 (tokens * dim)) in
  let out := foldl (divide_at tokens) out (seq 0 dim) in
  (out, tokens).

(** The sum of column [d], accumulated from 0 in the order of the tokens. *)
Definition column_sum (data : list number) (T D d : nat) : number :=
  foldl (fun acc t => (acc + data_at data (t * D + d))%float) 0%float (seq 0 T).

(** The formula of the specification evaluated in binary64:
    [(1/T) * sum]. *)
Definition mean_ref (data : list number) (T D d : nat) : number :=
  (1 / of_nat T * column_sum data T D d)%float.

Definition is_nan (a : number) : bool := negb (PrimFloat.eqb a a).

(** [a || 1] on a number: [1] when [a] is [0], [-0] or [NaN]. *)
Definition or_one (a : number) : number :=
  if PrimFloat.eqb a 0%float || is_nan a then 1%float else a.

Definition sum_squares (v : list number) : number :=
  foldl (fun s x => (s + x * x)%float) 0%float v.

Definition l2norm (v : list number) : list number :=
  let s := sum_squares v in
  let n := or_one (PrimFloat.sqrt s) in
  (fun x => (x / n)%float) <$> v.

(** The Euclidean length [sqrt (sum_i x_i^2)], computed in binary64, the
    squares added from the last component to the first. *)
Definition euclid (v : list number) : number :=
  PrimFloat.sqrt (foldr (fun x acc => (x * x + acc)%float) 0%float v).

Definition is_zero (x : number) : Prop := x = 0%float \/ x = (-0)%float.

Definition slice_to (vec : list number) (e : Z) : list number :=
  let len := Z.of_nat (length vec) in
  let final := if decide (e < 0)%Z then Z.max (len + e) 0 else Z.min e len in
  take (Z.to_nat final) vec.

Definition adjustDim (vec : list number) (target : Z) : list number :=
  let len := Z.of_nat (length vec) in
  if decide (len = target) then vec
  else if decide (len < target)%Z
       then vec ++ replicate (Z.to_nat (target - len)) 0%float
       else slice_to vec target.

Definition NORMALIZE : bool := true.

(** The per-item pipeline of the server with [TARGET_DIM], after the
    model call. *)
Definition embed_item (TARGET_DIM : Z) (raw : tensor) : list number * nat :=
  let '(vec, tokens) := meanPoolTensor raw in
  let emb := if NORMALIZE then l2norm vec else vec in
  let emb := adjustDim emb TARGET_DIM in
  (emb, tokens).

End B64.

(** The additions that the first loop makes into [out[d]] over the
    indices [l], from the value [acc]. *)
Definition column_fold (data : list B64.number) (dim d : nat)
    (l : list nat) (acc : B64.number) : B64.number :=
  foldl (fun a i => if decide (i mod dim = d)
                    then (a + B64.data_at data i)%float else a) acc l.

(** ** Stringification that can throw *)

Definition has_key (key : string) (fields : list (string * jsval)) : bool :=
  existsb (fun field => String.eqb field.1 key) fields.

(** The error of [String(v)] on an object that has no callable
    [toString] and whose [valueOf] gives no primitive. *)
Definition cannot_convert : js_error :=
  {| err_name := "TypeError";
     err_message := "Cannot convert object to primitive value" |}.

(** The results of the conversions made in turn, up to the first
    exception. *)
Fixpoint first_error {A : Type} (results : list (js_error + A)) : js_error + list A :=
  match results with
  | [] => inr []
  | inl err :: _ => inl err
  | inr a :: rest =>
      match first_error rest with
      | inl err => inl err
      | inr others => inr (a :: others)
      end
  end.

(** [String(v)] with its exception.  An object of the parsed body has
    the inherited [toString], which prints ["[object Object]"], unless it
    has an own property [toString]: that one is no function, the
    inherited [valueOf] returns the object itself, and the conversion
    throws.  An array joins the strings of its elements and throws when
    one of them does. *)
Fixpoint ToString (v : jsval) : js_error + string :=
  match v with
  | JArr elems =>
      match first_error (map (fun e => match e with
                                       | JUndefined | JNull => inr ""
                                       | _ => ToString e
                                       end) elems) with
      | inl err => inl err
      | inr parts => inr (join "," parts)
      end
  | JObj fields =>
      if has_key "toString" fields then inl cannot_convert else inr "[object Object]"
  | _ => inr (to_string v)
  end.

(** Whether [String(v)] throws. *)
Fixpoint throws (v : jsval) : bool :=
  match v with
  | JArr elems => existsb throws elems
  | JObj fields => has_key "toString" fields
  | _ => false
  end.

(** The numbers that [to_string] prints as [String] does: the safe
    integers, of magnitude at most [2^53 - 1]. *)
Fixpoint safe_numbers (v : jsval) : bool :=
  match v with
  | JNum z => (Z.abs z <=? 9007199254740991)%Z
  | JArr elems => forallb safe_numbers elems
  | _ => true
  end.

(** [t => { const s = String(t ?? "").trim(); return s.length ? s : " "; }] *)
Definition text_checked (t : jsval) : js_error + string :=
  match ToString (nullish t (JStr "")) with
  | inl err => inl err
  | inr str =>
      let s := trim str in
      inr (if (String.length s =? 0)%nat then " " else s)
  end.

(** The request normalizer with its exception:
    [Array.isArray(input) ? input : [String(input ?? " ")]], then the
    map. *)
Definition normalize_input (inp : jsval) : js_error + list string :=
  match inp with
  | JArr elems => first_error (text_checked <$> elems)
  | _ =>
      match ToString (nullish inp (JStr " ")) with
      | inl err => inl err
      | inr s => first_error (text_checked <$> [JStr s])
      end
  end.

(** A collaborator that rejects with an error that has neither a name
    nor a message. *)
Definition fails_unnamed (text : string) (calls : nat) : (js_error + tensor) * nat :=
  (inl {| err_name := ""; err_message := "" |}, S calls).

(** A collaborator whose plain call resolves to a tensor of two tokens
    and dimension 2. *)
Definition raw_2x2 (text : string) (calls : nat) : (js_error + tensor) * nat :=
  (inr {| t_tokens := 2; t_dim := 2; t_data := [1; 2; 3; 4]%R |}, S calls).

(** A collaborator that ignores the pooling options: the call that
    passes them resolves to the same un-pooled tensor, [dims] and all. *)
Definition ignores_pooling (text : string) (normalize : jsval) (calls : nat)
    : (js_error + Prefixed.pooled_output) * nat :=
  (inr {| Prefixed.o_data := Some [1; 2; 3; 4]%R;
          Prefixed.o_dims := Some [1; 2; 2] |}, S calls).

(** * Properties *)

(** ** Mean pooling *)

Lemma foldl_snoc {A B} (f : A -> B -> A) (a : A) (l : list B) (x : B) :
  foldl f a (l ++ [x]) = f (foldl f a l) x.
Proof. by rewrite foldl_app. Qed.

Lemma accumulate_length data dim out i :
  length (accumulate data dim out i) = length out.
Proof. unfold accumulate. by rewrite length_alter. Qed.

Lemma accumulate_loop_length data dim out l :
  length (foldl (accumulate data dim) out l) = length out.
Proof.
  revert out. induction l as [|i l IH]; intros out; simpl; [done|].
  by rewrite IH, accumulate_length.
Qed.

Lemma accumulate_loop_lookup data dim n d :
  d < dim ->
  foldl (accumulate data dim) (replicate dim 0%R) (seq 0 n) !! d
  = Some (partial_sum data dim d n).
Proof.
  intros Hd. induction n as [|n IH].
  - simpl. by rewrite lookup_replicate_2.
  - rewrite seq_S, foldl_snoc. simpl. unfold accumulate at 1.
    case_decide as Hcol.
    + rewrite Hcol, list_lookup_alter_eq, IH. done.
    + rewrite list_lookup_alter_ne by done. rewrite IH.
      f_equal. lra.
Qed.

(** Within the block of row [t], only the entry [t*D + d] is in column [d]. *)
Lemma partial_sum_block data dim d t j :
  d < dim -> j <= dim ->
  partial_sum data dim d (t * dim + j)
  = (partial_sum data dim d (t * dim) +
     (if decide (d < j)%nat then data_at data (t * dim + d)%nat else 0))%R.
Proof.
  intros Hd. induction j as [|j IH]; intros Hj.
  - rewrite Nat.add_0_r. destruct (decide (d < 0)); [lia | lra].
  - replace (t * dim + S j) with (S (t * dim + j)) by lia. simpl.
    rewrite IH by lia.
    assert (Hmod : (t * dim + j) mod dim = j).
    { rewrite Nat.add_comm, Nat.Div0.mod_add. apply Nat.mod_small. lia. }
    rewrite Hmod.
    destruct (decide (j = d)) as [->|Hne].
    + destruct (decide (d < d)); [lia|]. destruct (decide (d < S d)); [lra | lia].
    + destruct (decide (d < j)), (decide (d < S j)); try lia; lra.
Qed.

Lemma foldr_Rplus_init (b : R) (l : list R) :
  foldr Rplus b l = (foldr Rplus 0 l + b)%R.
Proof. induction l as [|x l IH]; simpl; [lra|]. rewrite IH. lra. Qed.

Lemma partial_sum_rows data dim d T :
  d < dim ->
  partial_sum data dim d (T * dim) = column_sum data T dim d.
Proof.
  intros Hd. unfold column_sum. induction T as [|T IH].
  - reflexivity.
  - replace (S T * dim) with (T * dim + dim) by lia.
    rewrite partial_sum_block by lia.
    destruct (decide (d < dim)); [|lia].
    rewrite IH, seq_S, fmap_app, foldr_app. simpl.
    simpl. rewrite (foldr_Rplus_init (_ + 0)). lra.
Qed.

Lemma divide_loop_length tokens out l :
  length (foldl (divide_at tokens) out l) = length out.
Proof.
  revert out. induction l as [|i l IH]; intros out; simpl; [done|].
  rewrite IH. unfold divide_at. by rewrite length_alter.
Qed.

Lemma divide_loop_lookup tokens out n d :
  foldl (divide_at tokens) out (seq 0 n) !! d
  = if decide (d < n) then (fun o => (o / INR tokens)%R) <$> out !! d else out !! d.
Proof.
  induction n as [|n IH].
  - simpl. destruct (decide (d < 0)); [lia | done].
  - rewrite seq_S, foldl_snoc. simpl. unfold divide_at at 1.
    destruct (decide (n = d)) as [->|Hne].
    + rewrite list_lookup_alter_eq, IH.
      destruct (decide (d < d)); [lia|]. destruct (decide (d < S d)); [done | lia].
    + rewrite list_lookup_alter_ne by done. rewrite IH.
      destruct (decide (d < n)), (decide (d < S n)); try lia; done.
Qed.

Lemma meanPoolTensor_length t : length (meanPoolTensor t).1 = t_dim t.
Proof.
  unfold meanPoolTensor. simpl.
  by rewrite divide_loop_length, accumulate_loop_length, length_replicate.
Qed.

Lemma meanPoolTensor_tokens t : (meanPoolTensor t).2 = t_tokens t.
Proof. reflexivity. Qed.

Lemma meanPoolTensor_lookup t d :
  d < t_dim t ->
  (meanPoolTensor t).1 !! d
  = Some (column_sum (t_data t) (t_tokens t) (t_dim t) d / INR (t_tokens t))%R.
Proof.
  intros Hd. unfold meanPoolTensor. simpl.
  rewrite divide_loop_lookup. destruct (decide (d < t_dim t)); [|lia].
  rewrite accumulate_loop_lookup by done. simpl.
  by rewrite partial_sum_rows.
Qed.

(** ** L2 normalization *)

Lemma l2norm_length v : length (l2norm v) = length v.
Proof. unfold l2norm. by rewrite length_fmap. Qed.

(** ** Dimension reconciliation *)

Example adjustDim_pad_example : adjustDim [1; 2]%R 4 = [1; 2; 0; 0]%R.
Proof. reflexivity. Qed.

Example adjustDim_truncate_example : adjustDim [1; 2; 3]%R 2 = [1; 2]%R.
Proof. reflexivity. Qed.

Example adjustDim_negative_example : adjustDim [1; 2; 3]%R (-1) = [1; 2]%R.
Proof. reflexivity. Qed.

Lemma adjustDim_same vec target :
  Z.of_nat (length vec) = target -> adjustDim vec target = vec.
Proof. intros H. unfold adjustDim. by rewrite decide_True. Qed.

Lemma adjustDim_pad vec target :
  (Z.of_nat (length vec) < target)%Z ->
  adjustDim vec target
  = vec ++ replicate (Z.to_nat target - length vec) 0%R.
Proof.
  intros H. unfold adjustDim.
  rewrite decide_False by lia. rewrite decide_True by done.
  do 2 f_equal. lia.
Qed.

Lemma adjustDim_truncate vec target :
  (0 <= target < Z.of_nat (length vec))%Z ->
  adjustDim vec target = take (Z.to_nat target) vec.
Proof.
  intros H. unfold adjustDim, slice_to.
  rewrite !decide_False by lia. f_equal. lia.
Qed.

Lemma adjustDim_length vec target :
  (0 <= target)%Z -> Z.of_nat (length (adjustDim vec target)) = target.
Proof.
  intros H.
  destruct (Z.lt_trichotomy (Z.of_nat (length vec)) target) as [Hlt|[Heq|Hgt]].
  - rewrite adjustDim_pad by done. rewrite length_app, length_replicate. lia.
  - by rewrite adjustDim_same.
  - rewrite adjustDim_truncate by lia. rewrite length_take. lia.
Qed.

(** A negative target is not a dimension: [slice] then drops components
    from the end instead. *)
Lemma adjustDim_negative vec target :
  (target < 0)%Z ->
  adjustDim vec target = take (length vec - Z.to_nat (- target)) vec.
Proof.
  intros H. unfold adjustDim, slice_to.
  rewrite decide_False by lia. rewrite decide_False by lia.
  rewrite decide_True by done. f_equal. lia.
Qed.

(** ** Request normalizer *)

Example to_string_array :
  to_string (JArr [JNum 1; JNull; JStr "a"; JArr [JBool true; JNum (-2)]]) = "1,,a,true,-2".
Proof. reflexivity. Qed.

Example texts_single_string : texts (JStr "  hello world ") = ["hello world"].
Proof. reflexivity. Qed.

Example texts_absent : texts JUndefined = [" "].
Proof. reflexivity. Qed.

Example texts_blank_items : texts (JArr [JStr ""; JStr "   "; JNull]) = [" "; " "; " "].
Proof. reflexivity. Qed.

Lemma trim_start_split s :
  exists pre, s = String.append pre (trim_start s) /\ all_space pre = true
              /\ not_space (first_char (trim_start s)).
Proof.
  induction s as [|c rest (pre & Heq & Hpre & Hfirst)]; simpl.
  - by exists "".
  - destruct (is_space c) eqn:Hc.
    + exists (String c pre). simpl. rewrite Hc, Hpre, <- Heq. done.
    + exists "". simpl. done.
Qed.

Lemma trim_end_split s :
  exists post, s = String.append (trim_end s) post /\ all_space post = true
               /\ not_space (last_char (trim_end s)).
Proof.
  induction s as [|c rest (post & Heq & Hpost & Hlast)]; simpl.
  - by exists "".
  - destruct (trim_end rest) as [|k kept] eqn:Hkept.
    + simpl in Heq. subst post. destruct (is_space c) eqn:Hc.
      * exists (String c rest). simpl. by rewrite Hc, Hpost.
      * exists rest. simpl. done.
    + exists post. simpl in *. rewrite <- Heq. done.
Qed.

Lemma trim_end_first s :
  not_space (first_char s) -> first_char (trim_end s) = first_char s \/ trim_end s = "".
Proof.
  destruct s as [|c rest]; simpl; [by right|].
  intros Hc. rewrite Hc. left. by destruct (trim_end rest).
Qed.

(** [trim s] is [s] without a run of white space at each end, and itself
    neither starts nor ends with white space. *)
Lemma trim_split s :
  exists pre post,
    s = String.append pre (String.append (trim s) post) /\
    all_space pre = true /\ all_space post = true /\
    not_space (first_char (trim s)) /\ not_space (last_char (trim s)).
Proof.
  unfold trim.
  destruct (trim_start_split s) as (pre & Hs & Hpre & Hfirst).
  destruct (trim_end_split (trim_start s)) as (post & Ht & Hpost & Hlast).
  exists pre, post. rewrite <- Ht, <- Hs. repeat split; try done.
  destruct (trim_end_first _ Hfirst) as [-> | ->]; done.
Qed.

Lemma text_of_nonempty t : text_of t <> "".
Proof.
  unfold text_of. destruct (trim _) as [|c s]; simpl; discriminate.
Qed.

Lemma text_of_stringified inp :
  text_of (JStr (to_string (nullish inp (JStr " ")))) = text_of inp.
Proof. destruct inp; reflexivity. Qed.

Lemma texts_elements inp : texts inp = text_of <$> elements inp.
Proof.
  destruct inp as [| | | | |elems|]; try reflexivity.
  all: unfold texts, items, elements; simpl; by rewrite text_of_stringified.
Qed.

(** ** Runs of the handler *)

Section HandlerFacts.

Variable world : Type.
Variable embedder : string -> M world tensor.
Variable cfg : config.

Lemma calls_ok_length ts w raws w' :
  calls_ok embedder ts w raws w' -> length raws = length ts.
Proof. induction 1; simpl; congruence. Qed.

Lemma entries_from_length i raws : length (entries_from cfg i raws) = length raws.
Proof. revert i. induction raws as [|raw raws IH]; intros i; simpl; [done|]. by rewrite IH. Qed.

Lemma entries_from_lookup i raws k raw :
  raws !! k = Some raw ->
  entries_from cfg i raws !! k
  = Some {| e_object := "embedding"; e_index := i + k;
            e_embedding := (embed_item cfg raw).1 |}.
Proof.
  revert i k. induction raws as [|r raws IH]; intros i k Hk; [done|].
  destruct k as [|k]; simpl in *.
  - inversion Hk; subst. by rewrite Nat.add_0_r.
  - rewrite (IH (S i) k Hk). do 2 f_equal. lia.
Qed.

Lemma embed_item_tokens raw : (embed_item cfg raw).2 = t_tokens raw.
Proof. reflexivity. Qed.

Lemma Number_fmap (v : list R) : Number <$> v = v.
Proof. exact (list_fmap_id v). Qed.

(** One turn of the loop. *)
Lemma embed_loop_cons text rest i data tot w :
  embed_loop embedder cfg (text :: rest) i data tot w
  = match embedder text w with
    | (inl e, w') => (inl e, w')
    | (inr raw, w') =>
        embed_loop embedder cfg rest (S i)
          (data ++ [{| e_object := "embedding"; e_index := i;
                       e_embedding := (embed_item cfg raw).1 |}])
          (tot + t_tokens raw) w'
    end.
Proof.
  cbn [embed_loop]. unfold bind.
  destruct (embedder text w) as [[e|raw] w']; [done|].
  rewrite <- (embed_item_tokens raw).
  destruct (embed_item cfg raw) as [emb tokens]. by rewrite Number_fmap.
Qed.

Lemma embed_loop_ok ts w raws w' :
  calls_ok embedder ts w raws w' ->
  forall i data tot,
    embed_loop embedder cfg ts i data tot w
    = (inr (data ++ entries_from cfg i raws, tot + tokens_of raws), w').
Proof.
  induction 1 as [w | text ts w raw w1 raws w2 Hcall Hrest IH]; intros i data tot.
  - cbn. unfold ret, tokens_of. cbn. by rewrite app_nil_r, Nat.add_0_r.
  - rewrite embed_loop_cons, Hcall, IH.
    cbn [entries_from]. rewrite <- app_assoc.
    unfold tokens_of. cbn. do 3 f_equal. lia.
Qed.

Lemma embed_loop_fails before w raws w1 :
  calls_ok embedder before w raws w1 ->
  forall text after e w2 i data tot,
    embedder text w1 = (inl e, w2) ->
    embed_loop embedder cfg (before ++ text :: after) i data tot w = (inl e, w2).
Proof.
  induction 1 as [w | t ts w raw w1 raws w2 Hcall Hrest IH];
    intros text after e w3 i data tot Hfail.
  - cbn [app]. by rewrite embed_loop_cons, Hfail.
  - rewrite <- app_comm_cons, embed_loop_cons, Hcall. by apply IH.
Qed.

(** The response of a request all of whose model calls resolve. *)
Lemma post_embed_ok req w raws w' :
  calls_ok embedder (texts (input req)) w raws w' ->
  post_embed embedder cfg req w
  = ({| status := 200; r_object := "list"; r_data := entries_from cfg 0 raws;
        r_model := js_or (model req) (JStr (RESPONSE_MODEL_LABEL cfg));
        r_usage := {| prompt_tokens := tokens_of raws; total_tokens := tokens_of raws |};
        r_error := None |}, w').
Proof.
  intros Hcalls. unfold post_embed, embed_try, bind.
  by rewrite (embed_loop_ok _ _ _ _ Hcalls).
Qed.

(** The response of a request one of whose model calls rejects. *)
Lemma post_embed_fails req w before text after raws w1 e w2 :
  texts (input req) = before ++ text :: after ->
  calls_ok embedder before w raws w1 ->
  embedder text w1 = (inl e, w2) ->
  post_embed embedder cfg req w = (embed_catch cfg req e, w2).
Proof.
  intros Htexts Hcalls Hfail. unfold post_embed, embed_try, bind.
  rewrite Htexts.
  by rewrite (embed_loop_fails _ _ _ _ Hcalls _ _ _ _ _ _ _ Hfail).
Qed.

(** Every run of the handler is of one of the two kinds. *)
Lemma calls_total ts : forall w,
  (exists raws w', calls_ok embedder ts w raws w') \/
  (exists before text after raws w1 e w2,
      ts = before ++ text :: after /\ calls_ok embedder before w raws w1 /\
      embedder text w1 = (inl e, w2)).
Proof.
  induction ts as [|text ts IH]; intros w.
  - left. exists [], w. constructor.
  - destruct (embedder text w) as [[e|raw] w1] eqn:Hcall.
    + right. exists [], text, ts, [], w, e, w1. repeat split; [constructor | done].
    + destruct (IH w1) as [(raws & w' & Hok) | (before & t & after & raws & w2 & e & w3 & -> & Hok & Hfail)].
      * left. exists (raw :: raws), w'. econstructor; eassumption.
      * right. exists (text :: before), t, after, (raw :: raws), w2, e, w3.
        repeat split; [econstructor; eassumption | done].
Qed.

End HandlerFacts.

(** ** Responses of the handler *)

Lemma embed_item_padded target label raw :
  embed_item (padded_config target label) raw
  = (adjustDim (l2norm (meanPoolTensor raw).1) target, t_tokens raw).
Proof. reflexivity. Qed.

Lemma embed_item_plain raw :
  embed_item plain_config raw = (l2norm (meanPoolTensor raw).1, t_tokens raw).
Proof. reflexivity. Qed.

Lemma entries_from_Forall cfg (P : embedding_entry -> Prop) raws :
  (forall i raw, P {| e_object := "embedding"; e_index := i;
                      e_embedding := (embed_item cfg raw).1 |}) ->
  forall i, Forall P (entries_from cfg i raws).
Proof.
  intros HP. induction raws as [|raw raws IH]; intros i; simpl.
  - constructor.
  - constructor; [apply HP | apply IH].
Qed.

(** The data list of any response: the entries of the tensors of a
    complete run, or nothing. *)
Lemma post_embed_data {world} (embedder : string -> world -> (js_error + tensor) * world)
    cfg req w :
  (exists raws w', calls_ok embedder (texts (input req)) w raws w' /\
                   r_data (post_embed embedder cfg req w).1 = entries_from cfg 0 raws) \/
  r_data (post_embed embedder cfg req w).1 = [].
Proof.
  destruct (calls_total world embedder (texts (input req)) w)
    as [(raws & w' & Hok) | (before & text & after & raws & w1 & e & w2 & Heq & Hok & Hfail)].
  - left. exists raws, w'. split; [done|]. by rewrite (post_embed_ok _ _ cfg _ _ _ _ Hok).
  - right. by rewrite (post_embed_fails _ _ cfg _ _ _ _ _ _ _ _ _ Heq Hok Hfail).
Qed.

Lemma post_embed_model {world}
    (embedder : string -> world -> (js_error + tensor) * world) cfg req w :
  r_model (post_embed embedder cfg req w).1
  = js_or (model req) (JStr (RESPONSE_MODEL_LABEL cfg)).
Proof.
  destruct (calls_total world embedder (texts (input req)) w)
    as [(raws & w' & Hok) | (before & text & after & raws & w1 & e & w2 & Heq & Hok & Hfail)].
  - by rewrite (post_embed_ok _ _ cfg _ _ _ _ Hok).
  - by rewrite (post_embed_fails _ _ cfg _ _ _ _ _ _ _ _ _ Heq Hok Hfail).
Qed.

Lemma error_text_nonempty e :
  err_name e <> "" \/ err_message e <> "" -> error_text e <> "".
Proof.
  unfold error_text, Error_toString.
  destruct (String.eqb_spec (err_message e) "") as [Hm|Hm]; simpl; [|done].
  destruct (String.eqb_spec (err_name e) "") as [Hn|Hn]; [|done].
  intros [H|H]; done.
Qed.

Lemma error_text_empty e :
  err_name e = "" -> err_message e = "" -> error_text e = "".
Proof.
  intros Hn Hm. unfold error_text, Error_toString. by rewrite Hn, Hm.
Qed.





(** A request that supplies the empty string as its model gets the
    default label back, in a success response and in an error response. *)
Lemma model_echo_counterexample :
  let req := {| input := JStr "hello"; model := JStr "";
                type := JUndefined; normalize := JUndefined |} in
  r_model (post_embed always_ok plain_config req 0).1 <> model req /\
  r_model (post_embed fails_second plain_config req 1).1 <> model req.
Proof. split; discriminate. Qed.

(** C9 (amended): the response's model field, of a success and of an
    error response alike, is the supplied [model] value itself whenever
    that value is truthy, in particular every non-empty string; a falsy
    supplied value (the empty string, [0], [false], [null]) or an absent
    one is replaced by the configured default label. *)
Theorem model_echo_truthy {world}
    (embedder : string -> world -> (js_error + tensor) * world) cfg req w :
  let resp := (post_embed embedder cfg req w).1 in
  (truthy (model req) = true -> r_model resp = model req) /\
  (forall s, model req = JStr s -> s <> "" -> r_model resp = JStr s) /\
  (truthy (model req) = false -> r_model resp = JStr (RESPONSE_MODEL_LABEL cfg)).
Proof.
  simpl. rewrite post_embed_model. unfold js_or. repeat split.
  - by intros ->.
  - intros s -> Hs. simpl. by destruct (String.eqb_spec s "").
  - by intros ->.
Qed.

Lemma model_echo_truthy_witness :
  let req := {| input := JStr "hello"; model := JStr "my-model";
                type := JUndefined; normalize := JUndefined |} in
  r_model (post_embed always_ok plain_config req 0).1 = JStr "my-model" /\
  r_model (post_embed fails_second plain_config req 1).1 = JStr "my-model".
Proof.
  split.
  - exact (proj1 (model_echo_truthy always_ok plain_config
      {| input := JStr "hello"; model := JStr "my-model";
         type := JUndefined; normalize := JUndefined |} 0) eq_refl).
  - exact (proj1 (model_echo_truthy fails_second plain_config
      {| input := JStr "hello"; model := JStr "my-model";
         type := JUndefined; normalize := JUndefined |} 1) eq_refl).
Defined.

(** ** Reconciled embeddings *)

(** C2: [adjustDim] returns [v] itself when [len(v) = target], [v]
    followed by [target - len(v)] zeros when [len(v) < target], and the
    first [target] components of [v] when [len(v) > target]; so the
    output length is [target], and with reconciliation configured every
    embedding of a response has length [TARGET_DIM], whatever the native
    dimension. *)
Theorem adjustDim_spec (v : list R) (target : Z) :
  (0 <= target)%Z ->
  (Z.of_nat (length v) = target -> adjustDim v target = v) /\
  ((Z.of_nat (length v) < target)%Z ->
     adjustDim v target = v ++ replicate (Z.to_nat target - length v) 0%R) /\
  ((target < Z.of_nat (length v))%Z ->
     adjustDim v target = take (Z.to_nat target) v) /\
  Z.of_nat (length (adjustDim v target)) = target /\
  (forall world (embedder : string -> world -> (js_error + tensor) * world) label req w,
     Forall (fun e => Z.of_nat (length (e_embedding e)) = target)
            (r_data (post_embed embedder (padded_config target label) req w).1)).
Proof.
  intros Htarget. repeat split.
  - apply adjustDim_same.
  - apply adjustDim_pad.
  - intros Hlt. apply adjustDim_truncate. lia.
  - by apply adjustDim_length.
  - intros world embedder label req w.
    destruct (post_embed_data embedder (padded_config target label) req w)
      as [(raws & w' & _ & ->) | ->]; [|constructor].
    apply entries_from_Forall. intros i raw.
    rewrite embed_item_padded. simpl. by apply adjustDim_length.
Qed.

Lemma adjustDim_spec_witness :
  adjustDim [1; 2]%R 4 = [1; 2; 0; 0]%R /\
  adjustDim [1; 2; 3]%R 2 = [1; 2]%R /\
  Z.of_nat (length (adjustDim [1; 2; 3]%R 2)) = 2%Z.
Proof.
  pose proof (adjustDim_spec [1; 2]%R 4 ltac:(lia)) as (_ & Hpad & _).
  pose proof (adjustDim_spec [1; 2; 3]%R 2 ltac:(lia)) as (_ & _ & Htrunc & Hlen & _).
  split; [exact (Hpad ltac:(simpl; lia))|].
  split; [exact (Htrunc ltac:(simpl; lia)) | exact Hlen].
Defined.

(** ** Prefix strategy *)

Lemma matches_here_spec pat s :
  Prefixed.matches_here pat s = true <->
  exists found after, s = String.append found after /\
                      fold_case_string found = fold_case_string pat.
Proof.
  revert s. induction pat as [|p pat IH]; intros s; simpl.
  - split; [|done]. intros _. by exists "", s.
  - destruct s as [|c s].
    + split; [done|]. intros (found & after & Hs & Hf).
      destruct found; simpl in *; discriminate.
    + rewrite andb_true_iff, IH. split.
      * intros [Hc (found & after & -> & Hf)].
        exists (String c found), after. simpl. split; [done|].
        apply Ascii.eqb_eq in Hc. by rewrite Hf, Hc.
      * intros (found & after & Hs & Hf).
        destruct found as [|c' found]; simpl in *; [discriminate|].
        inversion Hs; subst. inversion Hf as [[Hc Hrest]].
        split; [rewrite Hc; apply Ascii.eqb_refl|]. by exists found, after.
Qed.

Lemma regex_test_i_spec pat s :
  Prefixed.regex_test_i pat s = true <-> contains_marker pat s.
Proof.
  unfold contains_marker. induction s as [|c s IH]; simpl.
  - rewrite orb_false_r, matches_here_spec. split.
    + intros (found & after & Hs & Hf). by exists "", found, after.
    + intros (before & found & after & Hs & Hf).
      destruct before; simpl in Hs; [|discriminate]. by exists found, after.
  - rewrite orb_true_iff, matches_here_spec, IH. split.
    + intros [(found & after & Hs & Hf) | (before & found & after & -> & Hf)].
      * by exists "", found, after.
      * by exists (String c before), found, after.
    + intros (before & found & after & Hs & Hf).
      destruct before as [|b before]; simpl in Hs.
      * left. by exists found, after.
      * right. inversion Hs; subst. by exists before, found, after.
Qed.

(** C8: [withPrefix] returns its text unchanged unless the prefix
    feature is on and the model identifier contains the family marker
    ["bge"] as a case-insensitive substring; when it is active it returns
    the text prepended with ["query: "] for the role [query] and with
    ["passage: "] for every other role. *)
Theorem withPrefix_spec (use : bool) (model_id str kind : string) :
  (~ (use = true /\ contains_marker "bge" model_id) ->
     Prefixed.withPrefix use model_id str kind = str) /\
  (use = true -> contains_marker "bge" model_id ->
     (kind = "query" ->
        Prefixed.withPrefix use model_id str kind = String.append "query: " str) /\
     (kind <> "query" ->
        Prefixed.withPrefix use model_id str kind = String.append "passage: " str)).
Proof.
  unfold Prefixed.withPrefix. split.
  - intros Hoff. destruct use; simpl; [|done].
    destruct (Prefixed.regex_test_i "bge" model_id) eqn:Htest; [|done].
    exfalso. apply Hoff. split; [done|]. by apply regex_test_i_spec.
  - intros -> Hmarker. apply regex_test_i_spec in Hmarker. rewrite Hmarker. simpl.
    split.
    + by intros ->.
    + intros Hk. by destruct (String.eqb_spec kind "query").
Qed.

Lemma withPrefix_spec_witness :
  Prefixed.withPrefix true "Xenova/BGE-small-en-v1.5" "hello" "query" = "query: hello" /\
  Prefixed.withPrefix true "Xenova/bge-small-en-v1.5" "hello" "passage" = "passage: hello" /\
  Prefixed.withPrefix true "Xenova/all-MiniLM-L6-v2" "hello" "query" = "hello".
Proof.
  assert (Hupper : contains_marker "bge" "Xenova/BGE-small-en-v1.5")
    by (by exists "Xenova/", "BGE", "-small-en-v1.5").
  assert (Hlower : contains_marker "bge" "Xenova/bge-small-en-v1.5")
    by (by exists "Xenova/", "bge", "-small-en-v1.5").
  split; [|split].
  - exact (proj1 (proj2 (withPrefix_spec true "Xenova/BGE-small-en-v1.5" "hello" "query")
                   eq_refl Hupper) eq_refl).
  - exact (proj2 (proj2 (withPrefix_spec true "Xenova/bge-small-en-v1.5" "hello" "passage")
                   eq_refl Hlower) ltac:(discriminate)).
  - apply (proj1 (withPrefix_spec true "Xenova/all-MiniLM-L6-v2" "hello" "query")).
    intros [_ Hm]. apply regex_test_i_spec in Hm. discriminate.
Defined.

(** The texts this server sends to the model are the normalized texts,
    each with the prefix of the request's role. *)
Lemma prefixed_texts use model_id req :
  Prefixed.texts use model_id req
  = (fun s => Prefixed.withPrefix use model_id s (Prefixed.kind_of req))
      <$> texts (input req).
Proof. unfold Prefixed.texts, texts. by rewrite <- list_fmap_compose. Qed.

Example prefixed_texts_query :
  Prefixed.texts true "Xenova/bge-small-en-v1.5"
    {| input := JArr [JStr " what is rocq? "; JStr ""]; model := JUndefined;
       type := JStr "query"; normalize := JUndefined |}
  = ["query: what is rocq?"; "query:  "].
Proof. reflexivity. Qed.

(** ** Inference adapter *)

Lemma normalize_inline_l2norm vec : Prefixed.normalize_inline vec = l2norm vec.
Proof. reflexivity. Qed.

Lemma meanPoolTensor_out raw : Prefixed.meanPoolTensor raw = (meanPoolTensor raw).1.
Proof. reflexivity. Qed.

Lemma built_in_missing out :
  out = None \/
  (exists o, out = Some o /\ (Prefixed.o_data o = None \/ Prefixed.o_dims o = None)) ->
  Prefixed.built_in out = None.
Proof.
  intros [-> | (o & -> & [Hmiss | Hmiss])]; simpl; [done| |].
  - by rewrite Hmiss.
  - rewrite Hmiss. by destruct (Prefixed.o_data o).
Qed.

(** * Further properties *)

(** ** Mean pooling over token rows *)

Lemma data_at_app_l (row rest : list R) (d : nat) :
  d < length row -> data_at (row ++ rest) d = default 0%R (row !! d).
Proof. intros Hd. unfold data_at. by rewrite lookup_app_l. Qed.

Lemma data_at_app_r (row rest : list R) (i : nat) :
  data_at (row ++ rest) (length row + i) = data_at rest i.
Proof.
  unfold data_at. rewrite lookup_app_r by lia.
  by replace (length row + i - length row) with i by lia.
Qed.

Lemma column_sum_rows (D : nat) (rows : list (list R)) (d : nat) :
  Forall (fun row => length row = D) rows -> d < D ->
  column_sum (concat rows) (length rows) D d = column_total rows d.
Proof.
  intros Hshape Hd. unfold column_sum, column_total.
  induction Hshape as [|row rows Hrow Hrows IH]; [reflexivity|].
  cbn [length concat]. rewrite <- cons_seq, <- fmap_S_seq, !fmap_cons. cbn [foldr].
  rewrite <- IH. f_equal.
  - rewrite Nat.mul_0_l, Nat.add_0_l. apply data_at_app_l. lia.
  - f_equal. rewrite <- list_fmap_compose. apply list_fmap_ext.
    intros _ t _. simpl.
    replace (D + t * D + d) with (length row + (t * D + d)) by lia.
    apply data_at_app_r.
Qed.

Lemma meanPoolTensor_rows (D : nat) (rows : list (list R)) (d : nat) :
  Forall (fun row => length row = D) rows -> d < D ->
  (meanPoolTensor (tensor_of_rows D rows)).1 !! d
  = Some (column_total rows d / INR (length rows))%R.
Proof.
  intros Hshape Hd. rewrite meanPoolTensor_lookup by done. simpl.
  by rewrite column_sum_rows.
Qed.

Lemma column_total_replicate (T : nat) (row : list R) (d : nat) :
  column_total (replicate T row) d = (INR T * default 0 (row !! d))%R.
Proof.
  unfold column_total. induction T as [|T IH].
  - simpl. lra.
  - rewrite S_INR. csimpl. rewrite IH. lra.
Qed.



(** ** Dimension reconciliation, continued *)

Lemma adjustDim_adjustDim (v : list R) (a b : Z) :
  (0 <= b <= a)%Z ->
  adjustDim (adjustDim v a) b = adjustDim v b.
Proof.
  intros Hab.
  destruct (Z.lt_trichotomy (Z.of_nat (length v)) a) as [Hlt|[Heq|Hgt]].
  - rewrite (adjustDim_pad v a) by done.
    set (padded := v ++ replicate (Z.to_nat a - length v) 0%R).
    assert (Hlen : Z.of_nat (length padded) = a).
    { unfold padded. rewrite length_app, length_replicate. lia. }
    destruct (Z.lt_trichotomy b a) as [Hb|[Hb|Hb]]; [| |lia].
    + rewrite (adjustDim_truncate padded b) by lia. unfold padded.
      destruct (Z.lt_trichotomy (Z.of_nat (length v)) b) as [Hvb|[Hvb|Hvb]].
      * rewrite (adjustDim_pad v b) by done.
        rewrite take_app_ge by lia. f_equal.
        rewrite take_replicate. f_equal. lia.
      * rewrite (adjustDim_same v b) by done.
        rewrite take_app_le by lia. apply take_ge. lia.
      * rewrite (adjustDim_truncate v b) by lia.
        rewrite take_app_le by lia. done.
    + subst b. rewrite (adjustDim_same padded a) by done.
      unfold padded. by rewrite (adjustDim_pad v a).
  - rewrite (adjustDim_same v a) by done. done.
  - rewrite (adjustDim_truncate v a) by lia.
    destruct (Z.lt_trichotomy b a) as [Hb|[Hb|Hb]]; [| |lia].
    + rewrite adjustDim_truncate by (rewrite length_take; lia).
      rewrite (adjustDim_truncate v b) by lia.
      rewrite take_take. f_equal. lia.
    + subst b. rewrite (adjustDim_truncate v a) by lia.
      apply adjustDim_same. rewrite length_take. lia.
Qed.

(** Reconciling to [a] and then to a smaller [b] is reconciling to [b]
    at once; in particular reconciling twice to the same dimension is
    reconciling once. *)
Theorem adjustDim_compose (v : list R) (a b : Z) :
  (0 <= b <= a)%Z ->
  adjustDim (adjustDim v a) b = adjustDim v b.
Proof. apply adjustDim_adjustDim. Qed.

Lemma adjustDim_compose_witness :
  adjustDim (adjustDim [1; 2; 3]%R 5) 2 = adjustDim [1; 2; 3]%R 2.
Proof. exact (adjustDim_compose [1; 2; 3]%R 5 2 ltac:(lia)). Defined.

(** Padding loses nothing: reconciling the padded vector back to the
    original length gives the original vector. *)
Theorem adjustDim_pad_restore (v : list R) (target : Z) :
  (Z.of_nat (length v) <= target)%Z ->
  adjustDim (adjustDim v target) (Z.of_nat (length v)) = v.
Proof.
  intros Hle. rewrite adjustDim_adjustDim by lia. by apply adjustDim_same.
Qed.

Lemma adjustDim_pad_restore_witness :
  adjustDim (adjustDim [1; 2; 3]%R 1536) 3 = [1; 2; 3]%R.
Proof. exact (adjustDim_pad_restore [1; 2; 3]%R 1536 ltac:(simpl; lia)). Defined.

Lemma dot_app (u v a b : list R) :
  length u = length v -> dot (u ++ a) (v ++ b) = (dot u v + dot a b)%R.
Proof.
  unfold dot. revert v. induction u as [|x u IH]; intros [|y v] Hlen;
    try discriminate; csimpl.
  - lra.
  - rewrite IH by (simpl in Hlen; lia). lra.
Qed.

Lemma dot_zeros (m n : nat) : dot (replicate m 0%R) (replicate n 0%R) = 0%R.
Proof.
  unfold dot. revert n. induction m as [|m IH]; intros [|n]; csimpl; try lra.
  rewrite IH. lra.
Qed.

(** Padding two vectors of the same length to the same dimension does
    not change their inner product. *)
Theorem adjustDim_pad_dot (u v : list R) (target : Z) :
  length u = length v -> (Z.of_nat (length u) <= target)%Z ->
  dot (adjustDim u target) (adjustDim v target) = dot u v.
Proof.
  intros Hlen Hle. destruct (decide (Z.of_nat (length u) = target)) as [Heq|Hne].
  - rewrite !adjustDim_same; [done | by rewrite <- Hlen | done].
  - rewrite !adjustDim_pad by lia. rewrite dot_app, dot_zeros by done. lra.
Qed.

Lemma adjustDim_pad_dot_witness :
  dot (adjustDim [3; 4]%R 4) (adjustDim [1; 2]%R 4) = dot [3; 4]%R [1; 2]%R.
Proof. exact (adjustDim_pad_dot [3; 4]%R [1; 2]%R 4 eq_refl ltac:(simpl; lia)). Defined.

(** ** Request normalizer, continued *)

Lemma trim_start_fixed s : not_space (first_char s) -> trim_start s = s.
Proof. destruct s as [|c rest]; simpl; [done|]. by intros ->. Qed.

Lemma trim_end_fixed s : not_space (last_char s) -> trim_end s = s.
Proof.
  induction s as [|c rest IH]; [done|].
  destruct rest as [|c' rest'].
  - simpl. by intros ->.
  - intros Hlast. change (last_char (String c (String c' rest')))
      with (last_char (String c' rest')) in Hlast.
    cbn [trim_end]. cbn [trim_end] in IH. rewrite (IH Hlast). done.
Qed.

Lemma trim_trim s : trim (trim s) = trim s.
Proof.
  destruct (trim_split s) as (pre & post & _ & _ & _ & Hfirst & Hlast).
  unfold trim at 1. rewrite (trim_start_fixed _ Hfirst). by apply trim_end_fixed.
Qed.

Lemma text_of_text_of t : text_of (JStr (text_of t)) = text_of t.
Proof.
  assert (Hdef : text_of t
                 = if (String.length (trim (to_string (nullish t (JStr "")))) =? 0)%nat
                   then " " else trim (to_string (nullish t (JStr ""))))
    by reflexivity.
  destruct (trim (to_string (nullish t (JStr "")))) as [|c s] eqn:Htrim;
    cbn [String.length Nat.eqb] in Hdef; rewrite Hdef; [reflexivity|].
  unfold text_of. cbn [nullish to_string].
  rewrite <- Htrim, trim_trim, Htrim. reflexivity.
Qed.

(** Normalizing a batch that is already normalized changes nothing. *)
Theorem texts_idempotent (inp : jsval) :
  texts (JArr (JStr <$> texts inp)) = texts inp.
Proof.
  unfold texts. cbn [items]. rewrite <- !list_fmap_compose.
  apply list_fmap_ext. intros _ t _. simpl. apply text_of_text_of.
Qed.

(** Every text sent to the model is the single-space placeholder or a
    non-empty string that neither starts nor ends with white space. *)
Theorem texts_trimmed (inp : jsval) :
  Forall (fun s => s = " " \/
            (s <> "" /\ not_space (first_char s) /\ not_space (last_char s)))
         (texts inp).
Proof.
  unfold texts. apply Forall_fmap, Forall_true. intros t. simpl.
  unfold text_of.
  destruct (trim_split (to_string (nullish t (JStr ""))))
    as (pre & post & _ & _ & _ & Hfirst & Hlast).
  destruct (trim (to_string (nullish t (JStr "")))) as [|c s]; [by left|].
  right. by repeat split.
Qed.

(** ** Responses of the handler, continued *)

Lemma post_embed_cases {world} (embedder : string -> M world tensor) cfg req w :
  (exists raws w', calls_ok embedder (texts (input req)) w raws w' /\
     post_embed embedder cfg req w
     = ({| status := 200; r_object := "list"; r_data := entries_from cfg 0 raws;
           r_model := js_or (model req) (JStr (RESPONSE_MODEL_LABEL cfg));
           r_usage := {| prompt_tokens := tokens_of raws;
                         total_tokens := tokens_of raws |};
           r_error := None |}, w')) \/
  (exists e w', post_embed embedder cfg req w = (embed_catch cfg req e, w')).
Proof.
  destruct (calls_total world embedder (texts (input req)) w)
    as [(raws & w' & Hok) | (before & text & after & raws & w1 & e & w2 & Heq & Hok & Hfail)].
  - left. exists raws, w'. split; [done|]. by apply post_embed_ok.
  - right. exists e, w2. by eapply post_embed_fails.
Qed.



(** An empty array as input is answered with a success response that
    has no data and zero usage, without any call of the model. *)
Theorem embed_empty_batch {world} (embedder : string -> M world tensor) cfg req w :
  input req = JArr [] ->
  post_embed embedder cfg req w
  = ({| status := 200; r_object := "list"; r_data := [];
        r_model := js_or (model req) (JStr (RESPONSE_MODEL_LABEL cfg));
        r_usage := {| prompt_tokens := 0; total_tokens := 0 |};
        r_error := None |}, w).
Proof.
  intros Hinput. rewrite (post_embed_ok _ embedder cfg req w [] w); [done|].
  rewrite Hinput. constructor.
Qed.

Lemma embed_empty_batch_witness :
  status (post_embed fails_second plain_config
            {| input := JArr []; model := JUndefined;
               type := JUndefined; normalize := JUndefined |} 1).1 = 200.
Proof.
  by rewrite (embed_empty_batch fails_second plain_config
    {| input := JArr []; model := JUndefined;
       type := JUndefined; normalize := JUndefined |} 1 eq_refl).
Defined.



(** ** The [/health] handlers *)

(** The health answer reports the native hidden dimension of the model
    ([dims[2]] of the tensor for ["ok"]), whatever [TARGET_DIM] is, and
    [TARGET_DIM] beside it; a rejected model call is answered with
    status 500 and the text of the error. *)
Theorem health_reports_native_dim {world} (embedder : string -> M world tensor)
    cfg MODEL_ID w :
  (forall t w', embedder "ok" w = (inr t, w') ->
     get_health embedder cfg MODEL_ID w
     = ({| h_status := 200; h_ok := true; h_model := Some MODEL_ID;
           h_dim := Some (t_dim t); h_target_dim := TARGET_DIM cfg;
           h_error := None |}, w')) /\
  (forall e w', embedder "ok" w = (inl e, w') ->
     get_health embedder cfg MODEL_ID w
     = ({| h_status := 500; h_ok := false; h_model := None; h_dim := None;
           h_target_dim := None; h_error := Some (error_text e) |}, w')).
Proof.
  split.
  - intros t w' Hcall. unfold get_health, health_try, bind. rewrite Hcall.
    rewrite <- (meanPoolTensor_length t).
    by destruct (meanPoolTensor t) as [vec tokens].
  - intros e w' Hcall. unfold get_health, health_try, bind. by rewrite Hcall.
Qed.

Lemma health_reports_native_dim_witness :
  h_dim (get_health always_ok (padded_config 1536 "label") "Xenova/bge-small-en-v1.5" 0).1
  = Some 2.
Proof.
  by rewrite (proj1 (health_reports_native_dim always_ok (padded_config 1536 "label")
                       "Xenova/bge-small-en-v1.5" 0)
                _ _ eq_refl).
Defined.

(** The health handler of the server with the pooled fast path never
    reports a failure of the model call: the rejection is caught, the
    answer is still [ok: true] with status 200, and its [dim] is
    [null].  When the call resolves with non-empty [dims], [dim] is the
    last of them. *)
Theorem prefixed_health_always_ok {world}
    (embedder_pooled : string -> jsval -> M world Prefixed.pooled_output)
    MODEL_ID w :
  let resp := (PrefixedServer.get_health embedder_pooled MODEL_ID w).1 in
  PrefixedServer.h_status resp = 200 /\
  PrefixedServer.h_ok resp = true /\
  PrefixedServer.h_error resp = None /\
  (forall e w', embedder_pooled "ok" (JBool true) w = (inl e, w') ->
     PrefixedServer.h_dim resp = None) /\
  (forall o w' dims d,
     embedder_pooled "ok" (JBool true) w = (inr o, w') ->
     Prefixed.o_dims o = Some dims -> last dims = Some d ->
     PrefixedServer.h_dim resp = Some d).
Proof.
  unfold PrefixedServer.get_health, PrefixedServer.health_try, bind, catch_null.
  destruct (embedder_pooled "ok" (JBool true) w) as [[e|o] w1] eqn:Hcall; simpl;
    (split; [done|split; [done|split; [done|split]]]).
  - done.
  - intros o w' dims d Ho. discriminate.
  - intros e w' He. discriminate.
  - intros o' w' dims d Ho Hdims Hlast. inversion Ho; subst.
    by rewrite Hdims; simpl; rewrite Hlast.
Qed.

Lemma prefixed_health_always_ok_witness :
  PrefixedServer.h_dim
    (PrefixedServer.get_health no_pooling "Xenova/bge-small-en-v1.5" 0).1 = None /\
  PrefixedServer.h_dim
    (PrefixedServer.get_health pools_itself "Xenova/bge-small-en-v1.5" 0).1 = Some 2.
Proof.
  split.
  - destruct (prefixed_health_always_ok no_pooling "Xenova/bge-small-en-v1.5" 0)
      as (_ & _ & _ & Hrejected & _).
    exact (Hrejected _ _ eq_refl).
  - destruct (prefixed_health_always_ok pools_itself "Xenova/bge-small-en-v1.5" 0)
      as (_ & _ & _ & _ & Hdims).
    exact (Hdims _ _ [1; 2] 2 eq_refl eq_refl eq_refl).
Defined.

(** ** The [/embed] handler of the server with the pooled fast path *)

Section PrefixedFacts.

Variable world : Type.
Variable embedder_pooled : string -> jsval -> M world Prefixed.pooled_output.
Variable embedder : string -> M world tensor.

(** The vector of an item does not depend on the value [dim] has. *)
Lemma embed_text_dim normalize dim text w :
  Prefixed.embed_text embedder_pooled embedder normalize dim text w
  = match Prefixed.embed_text embedder_pooled embedder normalize 0 text w with
    | (inr (vec, _), w') => (inr (vec, if dim =? 0 then length vec else dim), w')
    | (inl e, w') => (inl e, w')
    end.
Proof.
  unfold Prefixed.embed_text, bind, catch_null, ret.
  destruct (embedder_pooled text normalize w) as [[e|o] w1].
  - cbn [Prefixed.built_in]. by destruct (embedder text w1) as [[e'|raw] w2].
  - destruct (Prefixed.built_in (Some o)); [reflexivity|].
    by destruct (embedder text w1) as [[e'|raw] w2].
Qed.

Lemma embed_texts_ok normalize ts w vecs w' :
  PrefixedServer.items_ok embedder_pooled embedder normalize ts w vecs w' ->
  forall dim vectors,
    PrefixedServer.embed_texts embedder_pooled embedder normalize ts dim vectors w
    = (inr (vectors ++ vecs,
            if dim =? 0 then PrefixedServer.first_dim vecs else dim), w').
Proof.
  induction 1 as [w | text ts w vec dim' w1 vecs w2 Hitem Hrest IH];
    intros dim vectors.
  - cbn. unfold ret. rewrite app_nil_r. by destruct (dim =? 0) eqn:Hdim;
      [apply Nat.eqb_eq in Hdim; subst|].
  - cbn [PrefixedServer.embed_texts]. unfold bind at 1.
    rewrite embed_text_dim, Hitem, IH, <- app_assoc. cbn [app].
    do 2 f_equal. cbn [PrefixedServer.first_dim].
    destruct (dim =? 0) eqn:Hdim; [done|].
    by rewrite Hdim.
Qed.

(** An item fails only when the plain model call rejects: a rejection
    of the call with pooling options is never what the handler reports. *)
Lemma embed_text_error normalize dim text w e w2 :
  Prefixed.embed_text embedder_pooled embedder normalize dim text w = (inl e, w2) ->
  embedder text (embedder_pooled text normalize w).2 = (inl e, w2).
Proof.
  unfold Prefixed.embed_text, bind, catch_null, ret.
  destruct (embedder_pooled text normalize w) as [[e0|o] w1]; cbn [snd].
  - cbn [Prefixed.built_in]. destruct (embedder text w1) as [[e'|raw] w3]; intros Heq; by inversion Heq.
  - destruct (Prefixed.built_in (Some o)); [discriminate|].
    destruct (embedder text w1) as [[e'|raw] w3]; intros Heq; by inversion Heq.
Qed.

End PrefixedFacts.



(** A request to this server fails only through a rejection of a plain
    model call: when the model call of an item with pooling options
    rejects and the plain call resolves, the item still gets its vector,
    and an error the loop reports is the error of a plain call. *)
Theorem prefixed_pooled_rejection_swallowed {world}
    (embedder_pooled : string -> jsval -> M world Prefixed.pooled_output)
    (embedder : string -> M world tensor) normalize dim text w :
  (forall e w2,
     Prefixed.embed_text embedder_pooled embedder normalize dim text w = (inl e, w2) ->
     embedder text (embedder_pooled text normalize w).2 = (inl e, w2)) /\
  (forall e0 w1 raw w2,
     embedder_pooled text normalize w = (inl e0, w1) ->
     embedder text w1 = (inr raw, w2) ->
     exists vec dim',
       Prefixed.embed_text embedder_pooled embedder normalize dim text w
       = (inr (vec, dim'), w2)).
Proof.
  split.
  - intros e w2. apply embed_text_error.
  - intros e0 w1 raw w2 Hpooled Hraw.
    unfold Prefixed.embed_text, bind, catch_null. rewrite Hpooled. simpl.
    rewrite Hraw. by eexists _, _.
Qed.

Lemma prefixed_pooled_rejection_swallowed_witness :
  exists vec dim',
    Prefixed.embed_text no_pooling always_ok (JBool true) 0 "passage: a" 0
    = (inr (vec, dim'), 2).
Proof.
  exact (proj2 (prefixed_pooled_rejection_swallowed no_pooling always_ok (JBool true) 0
                  "passage: a" 0) _ _ _ _ eq_refl eq_refl).
Defined.

(** All the texts of a request get the same prefix: none, ["query: "]
    or ["passage: "]; it is ["query: "] only when the request's [type] is
    exactly the string ["query"]; and no text sent to the model is
    empty. *)
Theorem prefixed_texts_uniform (use : bool) (model_id : string) (req : request) :
  exists prefix,
    (prefix = "" \/ prefix = "query: " \/ prefix = "passage: ") /\
    Prefixed.texts use model_id req = String.append prefix <$> texts (input req) /\
    (prefix = "query: " -> type req = JStr "query") /\
    Forall (fun s => s <> "") (Prefixed.texts use model_id req).
Proof.
  assert (Hnonempty : forall prefix,
            Forall (fun s => s <> "") (String.append prefix <$> texts (input req))).
  { intros prefix. apply Forall_fmap. unfold texts. apply Forall_fmap, Forall_true.
    intros t. simpl. pose proof (text_of_nonempty t) as Ht.
    destruct prefix; simpl; [done | discriminate]. }
  rewrite prefixed_texts. unfold Prefixed.withPrefix.
  destruct (negb use || negb (Prefixed.regex_test_i "bge" model_id)).
  - exists "". split; [by left|]. split; [done|]. split; [discriminate|].
    apply (Hnonempty "").
  - unfold Prefixed.kind_of.
    destruct (type req) as [| | | |s| |];
      try (exists "passage: "; split; [by right; right|];
           split; [done|]; split; [discriminate|]; apply (Hnonempty "passage: ")).
    destruct (String.eqb_spec s "query") as [->|Hs].
    + exists "query: ". split; [by right; left|]. split; [done|]. split; [done|].
      apply (Hnonempty "query: ").
    + exists "passage: ". split; [by right; right|]. split; [done|].
      split; [discriminate|]. apply (Hnonempty "passage: ").
Qed.

Lemma prefixed_texts_uniform_witness :
  Forall (fun s => s <> "")
    (Prefixed.texts true "Xenova/bge-small-en-v1.5"
       {| input := JArr [JStr ""; JNull]; model := JUndefined;
          type := JStr "query"; normalize := JUndefined |}).
Proof.
  destruct (prefixed_texts_uniform true "Xenova/bge-small-en-v1.5"
              {| input := JArr [JStr ""; JNull]; model := JUndefined;
                 type := JStr "query"; normalize := JUndefined |})
    as (prefix & _ & _ & _ & Hnonempty).
  exact Hnonempty.
Defined.

(** ** The minimal server *)

Lemma to_string_num_nonempty (z : Z) : to_string (JNum z) <> "".
Proof.
  cbn [to_string]. destruct (Z.to_int z) as [d|d]; [|discriminate].
  by destruct d.
Qed.

Lemma minimal_meanPool raw : Minimal.meanPool raw = (meanPoolTensor raw).1.
Proof. reflexivity. Qed.

Lemma minimal_embed_loop_ok {world} (embedder : string -> M world tensor) arr :
  forall w raws w' vectors,
    calls_ok embedder (Minimal.text_of <$> arr) w raws w' ->
    Minimal.embed_loop embedder arr vectors w
    = (inr (vectors ++ (Minimal.meanPool <$> raws)), w').
Proof.
  induction arr as [|t arr IH]; intros w raws w' vectors Hcalls;
    inversion Hcalls as [|text ts w0 raw w1 raws' w2 Hcall Hrest]; subst.
  - cbn. unfold ret. by rewrite app_nil_r.
  - cbn [Minimal.embed_loop]. unfold bind at 1. rewrite Hcall.
    rewrite (IH _ _ _ _ Hrest), <- app_assoc. reflexivity.
Qed.





(** An empty array inside the input array is sent as the empty text. *)
Example minimal_text_empty_array : Minimal.text_of (JArr []) = "".
Proof. reflexivity. Qed.

(** ** Mean pooling in binary64 *)

Lemma b64_accumulate_loop_length data dim out l :
  length (foldl (B64.accumulate data dim) out l) = length out.
Proof.
  revert out. induction l as [|i l IH]; intros out; simpl; [done|].
  rewrite IH. unfold B64.accumulate. by rewrite length_alter.
Qed.

Lemma b64_accumulate_loop_lookup data dim d l :
  forall out a, out !! d = Some a ->
    foldl (B64.accumulate data dim) out l !! d = Some (column_fold data dim d l a).
Proof.
  induction l as [|i l IH]; intros out a Hout; simpl; [done|].
  apply IH. unfold B64.accumulate.
  destruct (decide (i mod dim = d)) as [->|Hne].
  - by rewrite list_lookup_alter_eq, Hout.
  - by rewrite list_lookup_alter_ne.
Qed.

Lemma column_fold_block data dim d t j acc :
  d < dim -> j <= dim ->
  column_fold data dim d (seq (t * dim) j) acc
  = if decide (d < j) then (acc + B64.data_at data (t * dim + d))%float else acc.
Proof.
  intros Hd. unfold column_fold. induction j as [|j IH]; intros Hj.
  - simpl. by destruct (decide (d < 0)); [lia|].
  - rewrite seq_S, foldl_app, IH by lia. simpl.
    assert (Hmod : (t * dim + j) mod dim = j).
    { rewrite Nat.add_comm, Nat.Div0.mod_add. apply Nat.mod_small. lia. }
    rewrite Hmod.
    destruct (decide (j = d)) as [->|Hne].
    + destruct (decide (d < d)); [lia|]. by destruct (decide (d < S d)); [|lia].
    + destruct (decide (d < j)), (decide (d < S j)); try lia; done.
Qed.

Lemma column_fold_rows data dim d T :
  d < dim ->
  column_fold data dim d (seq 0 (T * dim)) 0%float = B64.column_sum data T dim d.
Proof.
  intros Hd. unfold B64.column_sum. induction T as [|T IH]; [reflexivity|].
  replace (S T * dim) with (T * dim + dim) by lia.
  rewrite seq_app, Nat.add_0_l. unfold column_fold in *. rewrite foldl_app, IH.
  fold (column_fold data dim d (seq (T * dim) dim)
          (foldl (fun acc t => (acc + B64.data_at data (t * dim + d))%float) 0%float (seq 0 T))).
  rewrite column_fold_block by lia. destruct (decide (d < dim)); [|lia].
  by rewrite seq_S, foldl_app.
Qed.

Lemma b64_divide_loop_length tokens out l :
  length (foldl (B64.divide_at tokens) out l) = length out.
Proof.
  revert out. induction l as [|i l IH]; intros out; simpl; [done|].
  rewrite IH. unfold B64.divide_at. by rewrite length_alter.
Qed.

Lemma b64_divide_loop_lookup tokens out n d :
  foldl (B64.divide_at tokens) out (seq 0 n) !! d
  = if decide (d < n)
    then (fun o => (o / B64.of_nat tokens)%float) <$> out !! d else out !! d.
Proof.
  induction n as [|n IH].
  - simpl. destruct (decide (d < 0)); [lia | done].
  - rewrite seq_S, foldl_app. simpl. unfold B64.divide_at at 1.
    destruct (decide (n = d)) as [->|Hne].
    + rewrite list_lookup_alter_eq, IH.
      destruct (decide (d < d)); [lia|]. destruct (decide (d < S d)); [done | lia].
    + rewrite list_lookup_alter_ne by done. rewrite IH.
      destruct (decide (d < n)), (decide (d < S n)); try lia; done.
Qed.

Lemma b64_meanPoolTensor_length t : length (B64.meanPoolTensor t).1 = B64.t_dim t.
Proof.
  unfold B64.meanPoolTensor. simpl.
  by rewrite b64_divide_loop_length, b64_accumulate_loop_length, length_replicate.
Qed.

Lemma b64_meanPoolTensor_lookup t d :
  d < B64.t_dim t ->
  (B64.meanPoolTensor t).1 !! d
  = Some (B64.column_sum (B64.t_data t) (B64.t_tokens t) (B64.t_dim t) d
          / B64.of_nat (B64.t_tokens t))%float.
Proof.
  intros Hd. unfold B64.meanPoolTensor. simpl.
  rewrite b64_divide_loop_lookup. destruct (decide (d < B64.t_dim t)); [|lia].
  rewrite (b64_accumulate_loop_lookup _ _ _ _ _ 0%float)
    by (by apply lookup_replicate_2).
  simpl. by rewrite column_fold_rows.
Qed.

(** In binary64 the result of [meanPoolTensor] is not the value of the
    formula [(1/T) * sum]: for one column holding 5, 0, 0 the code
    returns [5/3 = 1.6666666666666667] and the formula gives
    [1.6666666666666665]. *)
Lemma meanPool_formula_counterexample :
  let t := {| B64.t_tokens := 3; B64.t_dim := 1; B64.t_data := [5; 0; 0]%float |} in
  (B64.meanPoolTensor t).1 !! 0 = Some 0x1.aaaaaaaaaaaabp+0%float /\
  B64.mean_ref [5; 0; 0]%float 3 1 0 = 0x1.aaaaaaaaaaaaap+0%float /\
  (B64.meanPoolTensor t).1 !! 0 <> Some (B64.mean_ref [5; 0; 0]%float 3 1 0).
Proof. repeat split. discriminate. Qed.

(** C1 (amended): for every raw tensor with dims [[1, T, D]],
    [meanPoolTensor] returns a vector of length exactly [D] whose [d]-th
    component is the binary64 quotient by [T] of the sum of
    [data[t*D + d]] accumulated from 0 in increasing [t], every addition
    and the division rounded as binary64 does (a read past the buffer
    adds [NaN]). *)
Theorem meanPoolTensor_quotient (t : B64.tensor) :
  length (B64.meanPoolTensor t).1 = B64.t_dim t /\
  forall d, d < B64.t_dim t ->
    (B64.meanPoolTensor t).1 !! d
    = Some (B64.column_sum (B64.t_data t) (B64.t_tokens t) (B64.t_dim t) d
            / B64.of_nat (B64.t_tokens t))%float.
Proof.
  split; [apply b64_meanPoolTensor_length|].
  intros d Hd. by apply b64_meanPoolTensor_lookup.
Qed.

Lemma meanPoolTensor_quotient_witness :
  (B64.meanPoolTensor
     {| B64.t_tokens := 2; B64.t_dim := 2; B64.t_data := [1; 3; 5; 7]%float |}).1 !! 1
  = Some ((0 + 3 + 7) / 2)%float.
Proof.
  exact (proj2 (meanPoolTensor_quotient
           {| B64.t_tokens := 2; B64.t_dim := 2; B64.t_data := [1; 3; 5; 7]%float |})
         1 ltac:(simpl; lia)).
Defined.

(** ** L2 normalization in binary64 *)

Lemma b64_sum_squares_zero (v : list B64.number) :
  Forall B64.is_zero v -> B64.sum_squares v = 0%float.
Proof.
  unfold B64.sum_squares. induction 1 as [|x v [->| ->] _ IH]; simpl; [done| |];
    exact IH.
Qed.

Lemma b64_l2norm_length v : length (B64.l2norm v) = length v.
Proof. unfold B64.l2norm. by rewrite length_fmap. Qed.

Lemma b64_l2norm_zero (v : list B64.number) :
  Forall B64.is_zero v -> B64.l2norm v = v.
Proof.
  intros Hz. unfold B64.l2norm. rewrite (b64_sum_squares_zero v Hz).
  change (B64.or_one (PrimFloat.sqrt 0)) with 1%float.
  induction Hz as [|x v [->| ->] _ IH]; [done| |]; rewrite fmap_cons, IH; done.
Qed.

(** Without the guard the zero vector would be divided by its zero norm. *)
Lemma b64_zero_norm_division (v : list B64.number) (x : B64.number) :
  Forall B64.is_zero v -> B64.is_zero x ->
  (x / PrimFloat.sqrt (B64.sum_squares v))%float = nan.
Proof.
  intros Hz Hx. rewrite (b64_sum_squares_zero v Hz). by destruct Hx as [->| ->].
Qed.

Lemma b64_l2norm_quotients (v : list B64.number) :
  let n := PrimFloat.sqrt (B64.sum_squares v) in
  PrimFloat.eqb n 0%float = false -> B64.is_nan n = false ->
  B64.l2norm v = (fun x => (x / n)%float) <$> v.
Proof.
  intros n Hzero Hnan. unfold B64.l2norm, B64.or_one. fold n. by rewrite Hzero, Hnan.
Qed.




(** ** Reconciliation in binary64 *)

Lemma b64_adjustDim_same vec target :
  Z.of_nat (length vec) = target -> B64.adjustDim vec target = vec.
Proof. intros H. unfold B64.adjustDim. by rewrite decide_True. Qed.

Lemma b64_adjustDim_pad vec target :
  (Z.of_nat (length vec) < target)%Z ->
  B64.adjustDim vec target
  = vec ++ replicate (Z.to_nat target - length vec) 0%float.
Proof.
  intros H. unfold B64.adjustDim.
  rewrite decide_False by lia. rewrite decide_True by done.
  do 2 f_equal. lia.
Qed.

Lemma b64_adjustDim_truncate vec target :
  (0 <= target < Z.of_nat (length vec))%Z ->
  B64.adjustDim vec target = take (Z.to_nat target) vec.
Proof.
  intros H. unfold B64.adjustDim, B64.slice_to.
  rewrite !decide_False by lia. f_equal. lia.
Qed.

Lemma b64_euclid_pad (v : list B64.number) (n : nat) :
  B64.euclid (v ++ replicate n 0%float) = B64.euclid v.
Proof.
  unfold B64.euclid. rewrite foldr_app. do 2 f_equal.
  induction n as [|n IH]; [done|]. simpl. by rewrite IH.
Qed.


Lemma b64_embed_item target t :
  (B64.embed_item target t).1
  = B64.adjustDim (B64.l2norm (B64.meanPoolTensor t).1) target.
Proof. unfold B64.embed_item. by destruct (B64.meanPoolTensor t). Qed.



(** The truncated final vector of [(3, 4)] has Euclidean length 0.6. *)
Example truncated_3_4 :
  B64.euclid (B64.embed_item 1
     {| B64.t_tokens := 1; B64.t_dim := 2; B64.t_data := [3; 4]%float |}).1
  = 0x1.3333333333333p-1%float.
Proof. reflexivity. Qed.

(** ** The request normalizer with its exception *)

Lemma first_error_cases {A B : Type} (throwing : A -> bool) (f : A -> B)
    (err : js_error) (l : list A) :
  first_error (map (fun a => if throwing a then inl err else inr (f a)) l)
  = if existsb throwing l then inl err else inr (map f l).
Proof.
  induction l as [|a l IH]; [reflexivity|]. cbn [map first_error existsb].
  destruct (throwing a); [reflexivity|]. rewrite IH. by destruct (existsb throwing l).
Qed.

Lemma ToString_throws : forall v,
  ToString v = if throws v then inl cannot_convert else inr (to_string v).
Proof.
  fix IH 1. intros [| | | | |elems|fields]; try reflexivity.
  - cbn [ToString throws to_string].
    assert (Helems :
      map (fun e => match e with
                    | JUndefined | JNull => inr ""
                    | _ => ToString e
                    end) elems
      = map (fun e => if throws e then inl cannot_convert
                      else inr (match e with
                                | JUndefined | JNull => ""
                                | _ => to_string e
                                end)) elems).
    { induction elems as [|e elems IHelems]; [reflexivity|].
      cbn [map]. rewrite IHelems. f_equal.
      pose proof (IH e) as He. by destruct e. }
    rewrite Helems, first_error_cases. by destruct (existsb throws elems).
Qed.

Lemma throws_nullish (t fallback : jsval) :
  throws fallback = false -> throws (nullish t fallback) = throws t.
Proof. intros Hf. by destruct t. Qed.

Lemma text_checked_throws (t : jsval) :
  text_checked t = if throws t then inl cannot_convert else inr (text_of t).
Proof.
  unfold text_checked. rewrite ToString_throws, throws_nullish by done.
  by destruct (throws t).
Qed.

Lemma normalize_input_throws (inp : jsval) :
  normalize_input inp
  = if existsb throws (elements inp) then inl cannot_convert else inr (texts inp).
Proof.
  assert (Harray : forall elems,
            first_error (text_checked <$> elems)
            = if existsb throws elems then inl cannot_convert
              else inr (text_of <$> elems)).
  { intros elems.
    rewrite (list_fmap_ext text_checked
               (fun t => if throws t then inl cannot_convert else inr (text_of t))
               elems) by (intros; apply text_checked_throws).
    exact (first_error_cases throws text_of cannot_convert elems). }
  destruct inp as [| | | | |elems|fields]; try reflexivity.
  - apply Harray.
  - cbn [normalize_input nullish elements existsb]. rewrite ToString_throws.
    cbn [throws]. destruct (has_key "toString" fields); reflexivity.
Qed.




(** ** The error field *)


(** ** The inference adapter *)



